(** * LiveAPIClient: a shallow embedding of [src/lib/live-api-client.ts]

    The client drives one streaming session with a remote model endpoint.
    It keeps a state snapshot (connection flag, mute flag, volume meters,
    event log, model, config), talks to a transport session, an audio
    recorder and an audio streamer, and dispatches inbound server messages.

    The embedding is a state-and-exception monad over a [World]: the
    fields of the client object together with what its collaborators have
    observed (frames on the wire, calls on the audio devices, snapshots
    handed to the state listener, console output).  Each method of the
    class is one monadic definition that follows the TypeScript text; the
    [async] methods [connect] and [initAudioStreamer] are one definition
    for each stretch between two awaits, and the calls that are suspended
    are part of the world. *)

From Stdlib Require Import ZArith NArith String Ascii Lia.
From Stdlib.Strings Require Import Byte.
From stdpp Require Import gmap strings list pretty.

Local Open Scope string_scope.
Local Open Scope list_scope.

(* ================================================================== *)
(** ** JavaScript helpers used by the client *)
(* ================================================================== *)

Module JS.

(** [Array.prototype.slice(start)]: a negative [start] counts from the
    end of the array, and both ends are clamped to the array. *)
Definition slice {A : Type} (start : Z) (l : list A) : list A :=
  let len := Z.of_nat (length l) in
  let k := if (start <? 0)%Z then Z.max (len + start) 0 else Z.min start len in
  drop (Z.to_nat k) l.

(** [String.prototype.startsWith(p)]. *)
Fixpoint startsWith (p s : string) : bool :=
  match p, s with
  | EmptyString, _ => true
  | String a p', String b s' => if Ascii.eqb a b then startsWith p' s' else false
  | String _ _, EmptyString => false
  end.

(** [String.prototype.includes(p)]: [p] occurs somewhere in [s]. *)
Fixpoint includes (p s : string) : bool :=
  startsWith p s ||
  match s with
  | EmptyString => false
  | String _ s' => includes p s'
  end.

(** Truthiness of a possibly missing string: [undefined] and the empty
    string are falsy. *)
Definition truthy (o : option string) : bool :=
  match o with
  | Some s => negb (String.eqb s EmptyString)
  | None => false
  end.

(** [a || b] on a possibly missing string with a string default. *)
Definition orElse (o : option string) (dflt : string) : string :=
  match o with
  | Some s => if String.eqb s EmptyString then dflt else s
  | None => dflt
  end.

(** lodash [difference(array, values)]: the elements of [array] that are
    the same as no element of [values], in the order of [array]. *)
Definition difference {A : Type} (same : A -> A -> bool)
    (array values : list A) : list A :=
  List.filter (fun x => negb (existsb (same x) values)) array.

(** An array's elements paired with their positions.  The parts of a
    decoded message are pairwise distinct objects, so the position of a
    part in its array stands for its object identity. *)
Definition identified {A : Type} (l : list A) : list (nat * A) :=
  imap (fun i x => (i, x)) l.

Definition sameObject {A : Type} (x y : nat * A) : bool :=
  Nat.eqb (fst x) (fst y).

End JS.

(* ================================================================== *)
(** ** Data model: the types of [@google/genai] the client touches *)
(* ================================================================== *)

(** A thrown JavaScript value, kept as a message.  The wording of the
    errors an engine raises differs between engines; they are kept by
    their kind. *)
Definition JsError := string.

(** [Blob]: an inline payload, [{ mimeType?, data? }], [data] in base64. *)
Record Blob := {
  mimeType : option string;
  blob_data : option string
}.

(** A structured value ([Record<string, unknown>]); a field of an object
    in memory may hold [undefined]. *)
#[warnings="-register-all"]
Inductive Json :=
| JUndefined
| JNull
| JBool (b : bool)
| JNum (n : Z)
| JStr (s : string)
| JObj (fields : list (string * Json)).

(** [FunctionCall]: [args] maps parameter names to values.  The two
    providers of the repository declare string parameters only, and the
    values are kept as the strings sent for them. *)
Record FunctionCall := {
  fc_id : option string;
  fc_name : option string;
  fc_args : option (list (string * string))
}.

Record FunctionResponse := {
  fr_id : option string;
  fr_name : option string;
  fr_response : option Json
}.

(** [Part]: an interface of optional fields; a text part sets [text], an
    audio part sets [inlineData], a tool answer sets [functionResponse]. *)
Record Part := {
  inlineData : option Blob;
  text : option string;
  functionResponse : option FunctionResponse
}.

Definition textPart (s : string) : Part :=
  {| inlineData := None; text := Some s; functionResponse := None |}.

Definition inlinePart (mime b64 : string) : Part :=
  {| inlineData := Some {| mimeType := Some mime; blob_data := Some b64 |};
     text := None; functionResponse := None |}.

Definition responsePart (r : FunctionResponse) : Part :=
  {| inlineData := None; text := None; functionResponse := Some r |}.

Record Content := { parts : option (list Part) }.

(** [LiveServerContent]: each key may be absent; [modelTurn] may be
    present and empty. *)
Record LiveServerContent := {
  interrupted : option bool;
  turnComplete : option bool;
  modelTurn : option (option Content)
}.

Record LiveServerToolCall := { functionCalls : option (list FunctionCall) }.

Record LiveServerToolCallCancellation := { ids : list string }.

Inductive LiveServerSetupComplete := SetupComplete.

Record LiveServerMessage := {
  setupComplete : option LiveServerSetupComplete;
  toolCall : option LiveServerToolCall;
  toolCallCancellation : option LiveServerToolCallCancellation;
  serverContent : option LiveServerContent
}.

(** A capability provider: [callTool] receives the whole batch of calls
    and resolves to parts or rejects. *)
Record CallableTool := {
  tool_name : string;
  callTool : list FunctionCall -> JsError + list Part
}.

(** An entry of [config.tools]: a plain declaration, or a callable tool. *)
Inductive ToolUnion :=
| Declared (name : string)
| Callable (t : CallableTool).

Inductive MediaResolution :=
| MEDIA_RESOLUTION_LOW
| MEDIA_RESOLUTION_MEDIUM
| MEDIA_RESOLUTION_HIGH.

Record LiveConnectConfig := {
  mediaResolution : option MediaResolution;
  contextWindowCompression : option (string * string);
  config_tools : option (list ToolUnion);
  config_rest : list (string * Json)
}.

(** A realtime-input chunk, [{ mimeType, data }]. *)
Record Chunk := {
  chunk_mimeType : string;
  chunk_data : string
}.

(* ================================================================== *)
(** ** The event log and the state snapshot *)
(* ================================================================== *)

Inductive EventType :=
| Ev_open
| Ev_close
| Ev_error
| Ev_content
| Ev_audio
| Ev_toolcall
| Ev_toolcallcancellation
| Ev_interrupted
| Ev_turncomplete
| Ev_setupcomplete
| Ev_client_send
| Ev_client_realtimeInput
| Ev_client_toolResponse.

(** The payloads ([data?: any]) the client attaches to its events. *)
Inductive EventData :=
| D_error (message : string) (error : JsError)
| D_closeUser (reason : string)
| D_close (reason : string) (code : Z)
| D_toolCall (tc : LiveServerToolCall)
| D_toolCallCancellation (c : LiveServerToolCallCancellation)
| D_audio (byteLength : nat)
| D_content (modelTurnParts : list Part)
| D_clientSend (turns : list Part) (turnComplete : bool)
| D_realtimeInput (mediaType : string)
| D_toolResponse (functionResponses : list FunctionResponse).

Record LiveAPIEvent := {
  type : EventType;
  timestamp : Z;
  data : option EventData
}.

(** Volume levels are only stored and handed on. *)
Definition number := Z.

Record LiveAPIState := {
  connected : bool;
  muted : bool;
  inVolume : number;
  outVolume : number;
  events : list LiveAPIEvent;
  model : string;
  config : LiveConnectConfig
}.

(** [Partial<LiveAPIState>]: the keys an update carries. *)
Record PartialState := {
  p_connected : option bool;
  p_muted : option bool;
  p_inVolume : option number;
  p_outVolume : option number;
  p_events : option (list LiveAPIEvent);
  p_model : option string;
  p_config : option LiveConnectConfig
}.

Definition noUpdates : PartialState :=
  {| p_connected := None; p_muted := None; p_inVolume := None;
     p_outVolume := None; p_events := None; p_model := None;
     p_config := None |}.

(** [{ ...state, ...updates }]. *)
Definition spread (state : LiveAPIState) (updates : PartialState) : LiveAPIState :=
  {| connected := default (connected state) (p_connected updates);
     muted := default (muted state) (p_muted updates);
     inVolume := default (inVolume state) (p_inVolume updates);
     outVolume := default (outVolume state) (p_outVolume updates);
     events := default (events state) (p_events updates);
     model := default (model state) (p_model updates);
     config := default (config state) (p_config updates) |}.

(* ================================================================== *)
(** ** Collaborators, seen through the calls they receive *)
(* ================================================================== *)

(** A session handle names one transport connection. *)
Definition Session := nat.

(** What the transport has been asked to do. *)
Inductive WireAction :=
| LiveConnect (h : Session) (model : string) (config : LiveConnectConfig)
| SendClientContent (h : Session) (turns : list Part) (turnComplete : bool)
| SendRealtimeInput (h : Session) (media : Chunk)
| SendToolResponse (h : Session) (functionResponses : list FunctionResponse)
| Close (h : Session).

Inductive RecorderCall := RecStart | RecStop.

Inductive StreamerCall :=
| AddPCM16 (bytes : list byte)
| StreamerStop.

(** An audio device object is the list of calls made on it so far. *)
Record AudioRecorder := { recorderCalls : list RecorderCall }.
Record AudioStreamer := { streamerCalls : list StreamerCall }.

(** Where a call of the [async] method [initAudioStreamer] stands: it has
    returned, or it is suspended at one of its two awaits. *)
Inductive StreamerProgress :=
| StreamerInPlace
| AwaitingAudioContext
| AwaitingWorklet.

(** A call [connect(model, config)] that has not reached
    [live.connect] yet: its arguments, and where its call of
    [initAudioStreamer] stands. *)
Record ConnectCall := {
  call_model : option string;
  call_config : option LiveConnectConfig;
  call_streamer : StreamerProgress
}.

(** The client object and its surroundings. *)
Record World := {
  (* fields of [LiveAPIClient] *)
  session : option Session;
  audioStreamer : option AudioStreamer;
  audioRecorder : option AudioRecorder;
  _state : LiveAPIState;
  onStateChange : bool;
  tools : list CallableTool;
  (* environment *)
  clock : Z;
  wire : list WireAction;
  dialing : list Session;
  starting : list ConnectCall;
  delivered : list LiveAPIState;
  console : list string
}.

Definition initialState : LiveAPIState :=
  {| connected := false;
     muted := false;
     inVolume := 0%Z;
     outVolume := 0%Z;
     events := [];
     model := "models/gemini-2.5-flash-preview-native-audio-dialog";
     config := {| mediaResolution := Some MEDIA_RESOLUTION_MEDIUM;
                  contextWindowCompression := Some ("25600", "12800");
                  config_tools := None;
                  config_rest := [] |} |}.

(** [new LiveAPIClient({ onStateChange, tools, ... })] at time [now]. *)
Definition newClient (listening : bool) (ts : list CallableTool) (now : Z) : World :=
  {| session := None;
     audioStreamer := None;
     audioRecorder := Some {| recorderCalls := [] |};
     _state := initialState;
     onStateChange := listening;
     tools := ts;
     clock := now;
     wire := [];
     dialing := [];
     starting := [];
     delivered := [];
     console := [] |}.

(** Field setters. *)
Definition set_session (v : option Session) (w : World) : World :=
  {| session := v; audioStreamer := audioStreamer w;
     audioRecorder := audioRecorder w; _state := _state w;
     onStateChange := onStateChange w; tools := tools w; clock := clock w;
     wire := wire w; dialing := dialing w; starting := starting w;
     delivered := delivered w; console := console w |}.

Definition set_audioStreamer (v : option AudioStreamer) (w : World) : World :=
  {| session := session w; audioStreamer := v;
     audioRecorder := audioRecorder w; _state := _state w;
     onStateChange := onStateChange w; tools := tools w; clock := clock w;
     wire := wire w; dialing := dialing w; starting := starting w;
     delivered := delivered w; console := console w |}.

Definition set_audioRecorder (v : option AudioRecorder) (w : World) : World :=
  {| session := session w; audioStreamer := audioStreamer w;
     audioRecorder := v; _state := _state w;
     onStateChange := onStateChange w; tools := tools w; clock := clock w;
     wire := wire w; dialing := dialing w; starting := starting w;
     delivered := delivered w; console := console w |}.

Definition set_state (v : LiveAPIState) (w : World) : World :=
  {| session := session w; audioStreamer := audioStreamer w;
     audioRecorder := audioRecorder w; _state := v;
     onStateChange := onStateChange w; tools := tools w; clock := clock w;
     wire := wire w; dialing := dialing w; starting := starting w;
     delivered := delivered w; console := console w |}.

Definition set_tools (v : list CallableTool) (w : World) : World :=
  {| session := session w; audioStreamer := audioStreamer w;
     audioRecorder := audioRecorder w; _state := _state w;
     onStateChange := onStateChange w; tools := v; clock := clock w;
     wire := wire w; dialing := dialing w; starting := starting w;
     delivered := delivered w; console := console w |}.

Definition set_clock (v : Z) (w : World) : World :=
  {| session := session w; audioStreamer := audioStreamer w;
     audioRecorder := audioRecorder w; _state := _state w;
     onStateChange := onStateChange w; tools := tools w; clock := v;
     wire := wire w; dialing := dialing w; starting := starting w;
     delivered := delivered w; console := console w |}.

Definition set_wire (v : list WireAction) (w : World) : World :=
  {| session := session w; audioStreamer := audioStreamer w;
     audioRecorder := audioRecorder w; _state := _state w;
     onStateChange := onStateChange w; tools := tools w; clock := clock w;
     wire := v; dialing := dialing w; starting := starting w;
     delivered := delivered w; console := console w |}.

Definition set_dialing (v : list Session) (w : World) : World :=
  {| session := session w; audioStreamer := audioStreamer w;
     audioRecorder := audioRecorder w; _state := _state w;
     onStateChange := onStateChange w; tools := tools w; clock := clock w;
     wire := wire w; dialing := v; starting := starting w;
     delivered := delivered w; console := console w |}.

Definition set_starting (v : list ConnectCall) (w : World) : World :=
  {| session := session w; audioStreamer := audioStreamer w;
     audioRecorder := audioRecorder w; _state := _state w;
     onStateChange := onStateChange w; tools := tools w; clock := clock w;
     wire := wire w; dialing := dialing w; starting := v;
     delivered := delivered w; console := console w |}.

Definition set_delivered (v : list LiveAPIState) (w : World) : World :=
  {| session := session w; audioStreamer := audioStreamer w;
     audioRecorder := audioRecorder w; _state := _state w;
     onStateChange := onStateChange w; tools := tools w; clock := clock w;
     wire := wire w; dialing := dialing w; starting := starting w;
     delivered := v; console := console w |}.

Definition set_console (v : list string) (w : World) : World :=
  {| session := session w; audioStreamer := audioStreamer w;
     audioRecorder := audioRecorder w; _state := _state w;
     onStateChange := onStateChange w; tools := tools w; clock := clock w;
     wire := wire w; dialing := dialing w; starting := starting w;
     delivered := delivered w; console := v |}.

(* ================================================================== *)
(** ** The monad of client code: state plus thrown exceptions *)
(* ================================================================== *)

Inductive Completion (A : Type) :=
| Normal (a : A)
| Throw (e : JsError).

Arguments Normal {A} a.
Arguments Throw {A} e.

Definition Js (A : Type) : Type := World -> Completion A * World.

Definition ret {A} (a : A) : Js A := fun w => (Normal a, w).

Definition bind {A B} (m : Js A) (k : A -> Js B) : Js B :=
  fun w =>
    match m w with
    | (Normal a, w') => k a w'
    | (Throw e, w') => (Throw e, w')
    end.

Definition throw {A} (e : JsError) : Js A := fun w => (Throw e, w).

(** [try { m } catch (e) { handler e }]. *)
Definition tryCatch {A} (m : Js A) (handler : JsError -> Js A) : Js A :=
  fun w =>
    match m w with
    | (Normal a, w') => (Normal a, w')
    | (Throw e, w') => handler e w'
    end.

Definition get : Js World := fun w => (Normal w, w).
Definition modify (f : World -> World) : Js unit := fun w => (Normal tt, f w).

Declare Scope js_scope.
Delimit Scope js_scope with js.
Notation "x <- m ;; k" := (bind m (fun x => k))
  (at level 100, m at next level, right associativity) : js_scope.
Notation "m ;; k" := (bind m (fun _ => k))
  (at level 100, right associativity) : js_scope.
Local Open Scope js_scope.

(** The world a computation leaves behind, and how it completed. *)
Definition exec {A} (m : Js A) (w : World) : World := snd (m w).
Definition completion {A} (m : Js A) (w : World) : Completion A := fst (m w).

(** [for (const x of l) body(x)] and [l.forEach(body)]. *)
Fixpoint forEach {A} (l : list A) (body : A -> Js unit) : Js unit :=
  match l with
  | [] => ret tt
  | x :: l' => body x ;; forEach l' body
  end.

Definition when (b : bool) (m : Js unit) : Js unit :=
  if b then m else ret tt.

(* ================================================================== *)
(** ** The state broadcaster and the event log *)
(* ================================================================== *)

(** [this.onStateChange?.(state)]. *)
Definition notify (state : LiveAPIState) : Js unit :=
  w <- get ;;
  when (onStateChange w) (modify (set_delivered (delivered w ++ [state]))).

(** [updateState]: replace the snapshot, then tell the listener. *)
Definition updateState (updates : PartialState) : Js unit :=
  w <- get ;;
  modify (set_state (spread (_state w) updates)) ;;
  w <- get ;;
  notify (_state w).

(** [new Date()]. *)
Definition newDate : Js Z := w <- get ;; ret (clock w).

(** Single-key updates, [{ key: value }]. *)
Definition upd_connected (v : bool) : PartialState :=
  {| p_connected := Some v; p_muted := None; p_inVolume := None;
     p_outVolume := None; p_events := None; p_model := None;
     p_config := None |}.

Definition upd_muted (v : bool) : PartialState :=
  {| p_connected := None; p_muted := Some v; p_inVolume := None;
     p_outVolume := None; p_events := None; p_model := None;
     p_config := None |}.

Definition upd_inVolume (v : number) : PartialState :=
  {| p_connected := None; p_muted := None; p_inVolume := Some v;
     p_outVolume := None; p_events := None; p_model := None;
     p_config := None |}.

Definition upd_outVolume (v : number) : PartialState :=
  {| p_connected := None; p_muted := None; p_inVolume := None;
     p_outVolume := Some v; p_events := None; p_model := None;
     p_config := None |}.

Definition upd_events (v : list LiveAPIEvent) : PartialState :=
  {| p_connected := None; p_muted := None; p_inVolume := None;
     p_outVolume := None; p_events := Some v; p_model := None;
     p_config := None |}.

Definition upd_model (v : string) : PartialState :=
  {| p_connected := None; p_muted := None; p_inVolume := None;
     p_outVolume := None; p_events := None; p_model := Some v;
     p_config := None |}.

Definition upd_config (v : LiveConnectConfig) : PartialState :=
  {| p_connected := None; p_muted := None; p_inVolume := None;
     p_outVolume := None; p_events := None; p_model := None;
     p_config := Some v |}.

(** [addEvent]: append to the log; past 200 entries keep the last 150. *)
Definition addEvent (ty : EventType) (d : option EventData) : Js unit :=
  now <- newDate ;;
  let event := {| type := ty; timestamp := now; data := d |} in
  w <- get ;;
  let newEvents := events (_state w) ++ [event] in
  if (200 <? length newEvents)%nat
  then updateState (upd_events (JS.slice (-150) newEvents))
  else updateState (upd_events newEvents).

(** The log held by the client. *)
Definition log (w : World) : list LiveAPIEvent := events (_state w).

(** A run of appends, each an [addEvent] call. *)
Fixpoint appendAll (appends : list (EventType * option EventData)) : Js unit :=
  match appends with
  | [] => ret tt
  | (ty, d) :: rest => addEvent ty d ;; appendAll rest
  end.

(* ================================================================== *)
(** ** Calls on the collaborators *)
(* ================================================================== *)

(** [this.audioRecorder?.start()] and [this.audioRecorder?.stop()]. *)
Definition recorderCall (c : RecorderCall) : Js unit :=
  w <- get ;;
  match audioRecorder w with
  | Some r =>
      modify (set_audioRecorder (Some {| recorderCalls := recorderCalls r ++ [c] |}))
  | None => ret tt
  end.

(** [this.audioStreamer?.stop()] and [this.audioStreamer?.addPCM16(..)]. *)
Definition streamerCall (c : StreamerCall) : Js unit :=
  w <- get ;;
  match audioStreamer w with
  | Some a =>
      modify (set_audioStreamer (Some {| streamerCalls := streamerCalls a ++ [c] |}))
  | None => ret tt
  end.

Definition consoleError (msg : string) : Js unit :=
  w <- get ;; modify (set_console (console w ++ [msg])).

Definition transmit (a : WireAction) : Js unit :=
  w <- get ;; modify (set_wire (wire w ++ [a])).

(** [this.session.method(..)]: the field is read again at the call, and a
    call on [null] is a [TypeError]. *)
Definition sessionCall (action : Session -> WireAction) : Js unit :=
  w <- get ;;
  match session w with
  | Some h => transmit (action h)
  | None => throw "TypeError: Cannot read properties of null"
  end.

(** [this.session?.close()]. *)
Definition sessionClose : Js unit :=
  w <- get ;;
  match session w with
  | Some h => transmit (Close h)
  | None => ret tt
  end.

(** [await p] on a promise that has settled: its value, or its rejection
    thrown. *)
Definition await {A} (p : JsError + A) : Js A :=
  match p with
  | inr a => ret a
  | inl e => throw e
  end.

(* ================================================================== *)
(** ** Lifecycle *)
(* ================================================================== *)

(** [initAudioStreamer] is [async].  With a playback sink in place it
    returns at once; without one it awaits the audio context, stores a
    new sink, awaits the registration of the volume meter, and returns.
    It runs in up to three stretches, and other code of the client may
    run between them. *)

(** Up to the first [await]. *)
Definition initAudioStreamer_begin : Js StreamerProgress :=
  w <- get ;;
  match audioStreamer w with
  | None => ret AwaitingAudioContext
  | Some _ => ret StreamerInPlace
  end.

(** From [await audioContext(..)] to
    [await this.audioStreamer.addWorklet(..)]: the new sink is stored,
    whatever the field holds by now. *)
Definition initAudioStreamer_context : Js StreamerProgress :=
  modify (set_audioStreamer (Some {| streamerCalls := [] |})) ;;
  ret AwaitingWorklet.

(** After [await this.audioStreamer.addWorklet(..)]. *)
Definition initAudioStreamer_worklet : Js StreamerProgress :=
  ret StreamerInPlace.

(** [setConnected]. *)
Definition setConnected (value : bool) : Js unit :=
  updateState (upd_connected value) ;;
  w <- get ;;
  if value && negb (muted (_state w))
  then recorderCall RecStart
  else recorderCall RecStop.

(** [client.live.connect({ model, config, callbacks })]: the transport is
    asked for a connection, which gets the next free handle and stays
    pending until the promise settles. *)
Definition liveConnect (m : string) (c : LiveConnectConfig) : Js Session :=
  w <- get ;;
  let h := length (wire w) in
  transmit (LiveConnect h m c) ;;
  w <- get ;;
  modify (set_dialing (dialing w ++ [h])) ;;
  ret h.

(** [connect] is [async] and runs in three stretches.  The first is the
    guard on [this.connected] and the call of [initAudioStreamer]; it
    ends at [await this.initAudioStreamer()], also when the sink is in
    place.  The second stores model and config and asks the transport
    for the connection; it ends at
    [await this.client.live.connect(..)].  The third starts when that
    promise settles.  Transport callbacks and other methods may run
    between the stretches. *)
Inductive ConnectProgress :=
| ReturnedFalse
| AwaitingStreamer (s : StreamerProgress)
| Awaiting (h : Session).

Definition connect_begin : Js ConnectProgress :=
  w <- get ;;
  if connected (_state w) then ret ReturnedFalse
  else
    s <- initAudioStreamer_begin ;;
    ret (AwaitingStreamer s).

(** The stretch after [await this.initAudioStreamer()]: [m] and [c] are
    the arguments the call was made with, the state is the one of
    now. *)
Definition connect_resume (m : option string) (c : option LiveConnectConfig)
  : Js ConnectProgress :=
  w <- get ;;
  updateState {| p_connected := None; p_muted := None; p_inVolume := None;
                 p_outVolume := None; p_events := None;
                 p_model := Some (JS.orElse m (model (_state w)));
                 p_config := Some (default (config (_state w)) c) |} ;;
  w <- get ;;
  h <- liveConnect (model (_state w)) (config (_state w)) ;;
  ret (Awaiting h).

(** [connect(m, c)] from the call to [await live.connect] when both
    awaits of [initAudioStreamer] are fulfilled and nothing else runs in
    between. *)
Definition connect_undisturbed (m : option string) (c : option LiveConnectConfig)
  : Js ConnectProgress :=
  p <- connect_begin ;;
  match p with
  | AwaitingStreamer AwaitingAudioContext =>
      initAudioStreamer_context ;;
      initAudioStreamer_worklet ;;
      connect_resume m c
  | AwaitingStreamer _ => connect_resume m c
  | _ => ret p
  end.

(** The promise of [live.connect] settles: fulfilled ([None]) or rejected
    with an error. *)
Definition connect_settle (h : Session) (rejection : option JsError) : Js bool :=
  w <- get ;;
  modify (set_dialing (List.filter (fun h' => negb (Nat.eqb h' h)) (dialing w))) ;;
  match rejection with
  | None => modify (set_session (Some h)) ;; ret true
  | Some e =>
      consoleError "Error connecting to GenAI Live:" ;;
      addEvent Ev_error (Some (D_error "Failed to connect" e)) ;;
      ret false
  end.

(** [disconnect]. *)
Definition disconnect : Js bool :=
  w <- get ;;
  match session w with
  | None => ret false
  | Some _ =>
      sessionClose ;;
      modify (set_session None) ;;
      setConnected false ;;
      recorderCall RecStop ;;
      streamerCall StreamerStop ;;
      addEvent Ev_close (Some (D_closeUser "User disconnected")) ;;
      ret true
  end.

(** Transport callbacks. *)
Definition onOpen : Js unit :=
  setConnected true ;;
  addEvent Ev_open None.

Definition onError (message : string) : Js unit :=
  addEvent Ev_error (Some (D_error message message)).

Definition onClose (reason : string) (code : Z) : Js unit :=
  setConnected false ;;
  addEvent Ev_close (Some (D_close reason code)).

(** The event loop keeps the calls of [connect] that are suspended
    before [live.connect]; a call is named by its place among them. *)
Definition suspend (call : ConnectCall) : Js unit :=
  w <- get ;; modify (set_starting (starting w ++ [call])).

Definition restage (i : nat) (call : ConnectCall) (s : StreamerProgress) : Js unit :=
  w <- get ;;
  modify (set_starting
            (<[i := {| call_model := call_model call;
                       call_config := call_config call;
                       call_streamer := s |}]> (starting w))).

Definition unsuspend (i : nat) : Js unit :=
  w <- get ;; modify (set_starting (delete i (starting w))).

(** An [await] inside the [initAudioStreamer] of a suspended call
    settles.  A rejection there rejects [initAudioStreamer] and, through
    [await this.initAudioStreamer()], which is outside the [try], the
    promise of [connect]. *)
Definition streamer_awaited (i : nat) (call : ConnectCall)
    (rejection : option JsError) : Js unit :=
  match call_streamer call, rejection with
  | StreamerInPlace, _ => ret tt
  | _, Some e => unsuspend i ;; throw e
  | AwaitingAudioContext, None =>
      s <- initAudioStreamer_context ;; restage i call s
  | AwaitingWorklet, None =>
      s <- initAudioStreamer_worklet ;; restage i call s
  end.

(** A call whose [initAudioStreamer] has returned goes on. *)
Definition connect_resumes (i : nat) (call : ConnectCall) : Js unit :=
  match call_streamer call with
  | StreamerInPlace =>
      unsuspend i ;;
      connect_resume (call_model call) (call_config call) ;;
      ret tt
  | _ => ret tt
  end.

(* ================================================================== *)
(** ** Outbound operations *)
(* ================================================================== *)

(** [setMuted]. *)
Definition setMuted (m : bool) : Js unit :=
  updateState (upd_muted m) ;;
  w <- get ;;
  when (connected (_state w))
    (if m then recorderCall RecStop else recorderCall RecStart).

(** [sendText]. *)
Definition sendText (t : string) (tc : bool) : Js unit :=
  w <- get ;;
  match session w with
  | None => ret tt
  | Some _ =>
      let ps := [textPart t] in
      sessionCall (fun h => SendClientContent h ps tc) ;;
      addEvent Ev_client_send (Some (D_clientSend ps tc))
  end.

(** The loop of [sendRealtimeInput], with its two flags. *)
Fixpoint sendChunks (chunks : list Chunk) (hasAudio hasVideo : bool)
  : Js (bool * bool) :=
  match chunks with
  | [] => ret (hasAudio, hasVideo)
  | ch :: rest =>
      sessionCall (fun h => SendRealtimeInput h ch) ;;
      let hasAudio :=
        if JS.includes "audio" (chunk_mimeType ch) then true else hasAudio in
      let hasVideo :=
        if JS.includes "image" (chunk_mimeType ch) then true else hasVideo in
      sendChunks rest hasAudio hasVideo
  end.

Definition mediaTypeOf (hasAudio hasVideo : bool) : string :=
  if hasAudio && hasVideo then "audio+video"
  else if hasAudio then "audio"
  else if hasVideo then "video"
  else "unknown".

(** [sendRealtimeInput]. *)
Definition sendRealtimeInput (chunks : list Chunk) : Js unit :=
  w <- get ;;
  match session w with
  | None => ret tt
  | Some _ =>
      flags <- sendChunks chunks false false ;;
      let mediaType := mediaTypeOf (fst flags) (snd flags) in
      addEvent Ev_client_realtimeInput (Some (D_realtimeInput mediaType))
  end.

(** [setModel], [setConfig], [getConfig]. *)
Definition setModel (m : string) : Js unit := updateState (upd_model m).

Definition callableTools (ts : list ToolUnion) : list CallableTool :=
  omap (fun t => match t with Callable c => Some c | Declared _ => None end) ts.

Definition setConfig (c : LiveConnectConfig) : Js unit :=
  match config_tools c with
  | Some ts => modify (set_tools (callableTools ts))
  | None => ret tt
  end ;;
  updateState (upd_config c).

(* ================================================================== *)
(** ** Tool dispatch *)
(* ================================================================== *)

(** The provider loop: every tool gets the whole batch, one after the
    other, and its parts are pushed onto [responseParts]. *)
Fixpoint callTools (ts : list CallableTool) (fcs : list FunctionCall)
    (responseParts : list Part) : Js (list Part) :=
  match ts with
  | [] => ret responseParts
  | tool :: rest =>
      ps <- await (callTool tool fcs) ;;
      callTools rest fcs (responseParts ++ ps)
  end.

(** [.filter(part => part.functionResponse).map(part => ({ response, id,
    name }))]: the parts that carry a function response, each rebuilt from
    its three fields. *)
Definition toFunctionResponses (responseParts : list Part) : list FunctionResponse :=
  omap (fun part =>
          match functionResponse part with
          | Some fr => Some {| fr_id := fr_id fr; fr_name := fr_name fr;
                               fr_response := fr_response fr |}
          | None => None
          end) responseParts.

(** What [handleToolCalls] does with the collected parts, after the last
    provider has been awaited. *)
Definition respond (responseParts : list Part) : Js unit :=
  when (0 <? length responseParts)%nat
    (let functionResponses := toFunctionResponses responseParts in
     when (0 <? length functionResponses)%nat
       (sessionCall (fun h => SendToolResponse h functionResponses) ;;
        addEvent Ev_client_toolResponse
          (Some (D_toolResponse functionResponses)))).

(** The [catch] block of [handleToolCalls]. *)
Definition toolCallFailed (error : JsError) : Js unit :=
  consoleError "Error handling tool calls:" ;;
  addEvent Ev_error (Some (D_error "Tool call failed" error)).

(** [handleToolCalls].  The providers' promises are awaited one by one;
    the run is taken with no other client operation in between. *)
Definition handleToolCalls (fcs : list FunctionCall) : Js unit :=
  w <- get ;;
  if match session w with None => true | Some _ => false end
     || (length (tools w) =? 0)%nat
  then ret tt
  else
    tryCatch
      (responseParts <- callTools (tools w) fcs [] ;;
       respond responseParts)
      toolCallFailed.

(** The rest of a [handleToolCalls] that was suspended at its last
    [await], resumed in whatever world the client is in by then. *)
Definition handleToolCalls_resumed (responseParts : list Part) : Js unit :=
  tryCatch (respond responseParts) toolCallFailed.

(* ================================================================== *)
(** ** Inbound dispatch *)
(* ================================================================== *)

(** The filter of [onMessage]: an inline payload whose media type starts
    with ["audio/pcm"]. *)
Definition isAudioPart (p : Part) : bool :=
  match inlineData p with
  | Some b =>
      match mimeType b with
      | Some m => JS.startsWith "audio/pcm" m
      | None => false
      end
  | None => false
  end.

(** [p.inlineData?.data]. *)
Definition inlineBase64 (p : Part) : option string :=
  match inlineData p with
  | Some b => blob_data b
  | None => None
  end.

Section Dispatch.

(** [base64ToArrayBuffer] of [./utils] is not among the sources: the
    client is modelled over any decoder, which may throw on a payload it
    cannot decode. *)
Variable base64ToArrayBuffer : string -> JsError + list byte.

(** The body of [base64s.forEach]. *)
Definition playAudio (b64 : option string) : Js unit :=
  if JS.truthy b64 then
    bytes <- await (base64ToArrayBuffer (default EmptyString b64)) ;;
    streamerCall (AddPCM16 bytes) ;;
    addEvent Ev_audio (Some (D_audio (length bytes)))
  else ret tt.

(** The [modelTurn] branch of [onMessage]. *)
Definition onModelTurn (mt : option Content) : Js unit :=
  let ps := default [] (mt ≫= parts) in
  let identifiedParts := JS.identified ps in
  let audioParts := List.filter (fun p => isAudioPart (snd p)) identifiedParts in
  let base64s := List.map (fun p => inlineBase64 (snd p)) audioParts in
  let otherParts := JS.difference JS.sameObject identifiedParts audioParts in
  forEach base64s playAudio ;;
  when (0 <? length otherParts)%nat
    (addEvent Ev_content (Some (D_content (List.map snd otherParts)))).

(** [onMessage]: the first matching case wins.  [handleToolCalls] is
    started from here and not awaited by the caller. *)
Definition onMessage (message : LiveServerMessage) : Js unit :=
  match setupComplete message with
  | Some _ => addEvent Ev_setupcomplete None
  | None =>
  match toolCall message with
  | Some tc =>
      addEvent Ev_toolcall (Some (D_toolCall tc)) ;;
      w <- get ;;
      match functionCalls tc with
      | Some fcs => when (0 <? length (tools w))%nat (handleToolCalls fcs)
      | None => ret tt
      end
  | None =>
  match toolCallCancellation message with
  | Some c => addEvent Ev_toolcallcancellation (Some (D_toolCallCancellation c))
  | None =>
  match serverContent message with
  | Some sc =>
      match interrupted sc with
      | Some _ =>
          addEvent Ev_interrupted None ;;
          streamerCall StreamerStop
      | None =>
          match turnComplete sc with
          | Some _ => addEvent Ev_turncomplete None
          | None => ret tt
          end ;;
          match modelTurn sc with
          | Some mt => onModelTurn mt
          | None => ret tt
          end
      end
  | None => ret tt
  end end end end.

(** The capture device's callbacks, registered by [setupAudioRecorder]. *)
Definition onRecorderData (base64 : string) : Js unit :=
  w <- get ;;
  when (connected (_state w) && negb (muted (_state w)))
    (sendRealtimeInput
       [{| chunk_mimeType := "audio/pcm;rate=16000"; chunk_data := base64 |}]).

Definition onRecorderVolume (volume : number) : Js unit :=
  updateState (upd_inVolume volume).

(** The playback meter's callback, registered by [initAudioStreamer]. *)
Definition onStreamerVolume (volume : number) : Js unit :=
  updateState (upd_outVolume volume).

(** [destroy]. *)
Definition destroy : Js unit :=
  disconnect ;;
  recorderCall RecStop ;;
  streamerCall StreamerStop ;;
  modify (set_tools []).

(** Everything that can happen to a client: a method call from the UI,
    a callback from the transport or an audio device, the settling of a
    promise that a call of [connect] awaits, or time passing. *)
Inductive Op :=
| Connect (m : option string) (c : option LiveConnectConfig)
| StreamerAwaited (i : nat) (rejection : option JsError)
| ConnectResumes (i : nat)
| ConnectSettles (h : Session) (rejection : option JsError)
| Disconnect
| Destroy
| SetMuted (m : bool)
| SendText (t : string) (tc : bool)
| SendRealtime (chunks : list Chunk)
| SetConfig (c : LiveConnectConfig)
| SetModel (m : string)
| TransportOpen
| TransportMessage (message : LiveServerMessage)
| TransportError (message : string)
| TransportClose (reason : string) (code : Z)
| RecorderData (base64 : string)
| RecorderVolume (volume : number)
| StreamerVolume (volume : number)
| Tick (dt : Z).

Definition perform (o : Op) : Js unit :=
  match o with
  | Connect m c =>
      p <- connect_begin ;;
      match p with
      | AwaitingStreamer s =>
          suspend {| call_model := m; call_config := c; call_streamer := s |}
      | _ => ret tt
      end
  | StreamerAwaited i rejection =>
      w <- get ;;
      match starting w !! i with
      | Some call => streamer_awaited i call rejection
      | None => ret tt
      end
  | ConnectResumes i =>
      w <- get ;;
      match starting w !! i with
      | Some call => connect_resumes i call
      | None => ret tt
      end
  | ConnectSettles h rejection =>
      w <- get ;;
      when (bool_decide (h ∈ dialing w)) (connect_settle h rejection ;; ret tt)
  | Disconnect => disconnect ;; ret tt
  | Destroy => destroy
  | SetMuted m => setMuted m
  | SendText t tc => sendText t tc
  | SendRealtime chunks => sendRealtimeInput chunks
  | SetConfig c => setConfig c
  | SetModel m => setModel m
  | TransportOpen => onOpen
  | TransportMessage message => onMessage message
  | TransportError message => onError message
  | TransportClose reason code => onClose reason code
  | RecorderData base64 => onRecorderData base64
  | RecorderVolume volume => onRecorderVolume volume
  | StreamerVolume volume => onStreamerVolume volume
  | Tick dt => w <- get ;; modify (set_clock (clock w + Z.max dt 0))
  end.

(** A history of the client: the world after each operation in turn.
    An exception that escapes an operation leaves the world as it was
    when thrown. *)
Definition run (ops : list Op) (w : World) : World :=
  fold_left (fun w o => exec (perform o) w) ops w.

End Dispatch.

(* ================================================================== *)
(** ** The capability providers of the repository *)
(* ================================================================== *)

Module WeatherTool.

Definition name : string := "get_weather".

(** The table of hard-coded weather data: temperature (Fahrenheit),
    condition, humidity. *)
Definition weatherData : list (string * (Z * string * Z)) :=
  [ ("San Francisco, CA", (65, "Partly Cloudy", 68));
    ("New York, NY", (72, "Sunny", 55));
    ("London, UK", (58, "Rainy", 85));
    ("Tokyo, Japan", (78, "Clear", 62));
    ("Paris, France", (61, "Cloudy", 70));
    ("default", (70, "Clear", 60)) ]%Z.

Fixpoint own (k : string) (table : list (string * (Z * string * Z)))
  : option (Z * string * Z) :=
  match table with
  | [] => None
  | (k', v) :: rest => if String.eqb k k' then Some v else own k rest
  end.

(** The names every object inherits from [Object.prototype].  What they
    hold is a function, or for [__proto__] the prototype itself: truthy,
    and without [temp], [condition] or [humidity]. *)
Definition inherited : list string :=
  [ "constructor"; "hasOwnProperty"; "isPrototypeOf"; "propertyIsEnumerable";
    "toLocaleString"; "toString"; "valueOf"; "__proto__";
    "__defineGetter__"; "__defineSetter__"; "__lookupGetter__";
    "__lookupSetter__" ].

(** What [weatherData[k]] is when it is not [undefined]: an entry of the
    table, or an inherited member. *)
Inductive Found :=
| Entry (temp : Z) (condition : string) (humidity : Z)
| Inherited.

Definition lookup (k : string) : option Found :=
  match own k weatherData with
  | Some (temp, condition, humidity) => Some (Entry temp condition humidity)
  | None => if existsb (String.eqb k) inherited then Some Inherited else None
  end.

Fixpoint arg (k : string) (args : list (string * string)) : option string :=
  match args with
  | [] => None
  | (k', v) :: rest => if String.eqb k k' then Some v else arg k rest
  end.

(** [Math.round((temp - 32) * 5 / 9)], rounding halves up. *)
Definition toCelsius (temp : Z) : Z := ((10 * (temp - 32) + 9) / 18)%Z.

(** The answer to one recognised call; reading [fc.args.location] of a
    call without [args] throws.  [data] is [weatherData[location]], or
    the entry [default] when that is [undefined]; an inherited member
    has no [temp], which gives [undefined] and, converted, [NaN]. *)
Definition answer (fc : FunctionCall) : JsError + Part :=
  match fc_args fc with
  | None => inl "TypeError: Cannot read properties of undefined"
  | Some args =>
      let location := JS.orElse (arg "location" args) "Unknown" in
      let unit := JS.orElse (arg "unit" args) "fahrenheit" in
      let data := default (Entry 70 "Clear" 60) (lookup location) in
      let celsius := String.eqb unit "celsius" in
      let temperature :=
        match data with
        | Entry temp _ _ => pretty (if celsius then toCelsius temp else temp)
        | Inherited => if celsius then "NaN" else "undefined"
        end in
      let unitSymbol := if celsius then "°C" else "°F" in
      let condition :=
        match data with
        | Entry _ condition _ => JStr condition
        | Inherited => JUndefined
        end in
      let humidity :=
        match data with
        | Entry _ _ humidity => pretty humidity
        | Inherited => "undefined"
        end in
      inr (responsePart
        {| fr_name := fc_name fc;
           fr_id := fc_id fc;
           fr_response := Some (JObj
             [("weather", JObj
                [("location", JStr location);
                 ("temperature", JStr (temperature ++ unitSymbol));
                 ("condition", condition);
                 ("humidity", JStr (humidity ++ "%"));
                 ("forecast",
                  JStr "Stable conditions expected for the next 24 hours")])]) |})
  end.

(** [callTool]: one response part per call named [get_weather]. *)
Fixpoint callTool (fcs : list FunctionCall) : JsError + list Part :=
  match fcs with
  | [] => inr []
  | fc :: rest =>
      if bool_decide (fc_name fc = Some name) then
        match answer fc with
        | inl e => inl e
        | inr p =>
            match callTool rest with
            | inl e => inl e
            | inr ps => inr (p :: ps)
            end
        end
      else callTool rest
  end.

Definition tool : CallableTool := Build_CallableTool name callTool.

End WeatherTool.

Module AltairTool.

Definition name : string := "render_altair".

Definition output (fc : FunctionCall) (success : bool) (message : string) : Part :=
  responsePart
    {| fr_name := fc_name fc;
       fr_id := fc_id fc;
       fr_response := Some (JObj
         [("output", JObj [("success", JBool success);
                           ("message", JStr message)])]) |}.

Section Rendering.

(** Whether a container has been set, and what parsing and embedding
    a chart does: it succeeds, or throws. *)
Variable container : bool.
Variable vegaEmbed : string -> option JsError.

Definition answer (fc : FunctionCall) : Part :=
  match fc_args fc with
  | None =>
      output fc false
        "Error rendering chart: TypeError: Cannot read properties of undefined"
  | Some args =>
      let jsonString := WeatherTool.arg "json_graph" args in
      if container && JS.truthy jsonString then
        match vegaEmbed (default EmptyString jsonString) with
        | None => output fc true "Chart rendered successfully"
        | Some error => output fc false ("Error rendering chart: " ++ error)
        end
      else
        output fc false
          (if container then "Invalid JSON string" else "Container not set")
  end.

(** [callTool]: one response part per call named [render_altair];
    failures are answered, never thrown. *)
Definition callTool (fcs : list FunctionCall) : JsError + list Part :=
  inr (List.map answer
         (List.filter (fun fc => bool_decide (fc_name fc = Some name)) fcs)).

Definition tool : CallableTool := Build_CallableTool name callTool.

End Rendering.

End AltairTool.

(* ================================================================== *)
(** ** A base64 decoder *)
(* ================================================================== *)

Module Base64.

(** The value of a character of the base64 alphabet. *)
Definition sextet (c : ascii) : option N :=
  let n := N_of_ascii c in
  if (65 <=? n)%N && (n <=? 90)%N then Some (n - 65)%N
  else if (97 <=? n)%N && (n <=? 122)%N then Some (n - 71)%N
  else if (48 <=? n)%N && (n <=? 57)%N then Some (n + 4)%N
  else if (n =? 43)%N then Some 62%N
  else if (n =? 47)%N then Some 63%N
  else None.

Fixpoint sextets (s : string) : option (list N) :=
  match s with
  | EmptyString => Some []
  | String c s' =>
      if String.eqb s "=" || String.eqb s "==" then Some []
      else
        match sextet c, sextets s' with
        | Some n, Some ns => Some (n :: ns)
        | _, _ => None
        end
  end.

Definition octet (n : N) : byte := byte_of_ascii (ascii_of_N (n mod 256)).

Fixpoint octets (l : list N) : list byte :=
  match l with
  | a :: b :: c :: d :: rest =>
      octet (a * 4 + b / 16) :: octet (b * 16 + c / 4) :: octet (c * 64 + d)
        :: octets rest
  | [a; b; c] => [octet (a * 4 + b / 16); octet (b * 16 + c / 4)]
  | [a; b] => [octet (a * 4 + b / 16)]
  | _ => []
  end%N.

(** Modelled from the spec: [base64ToArrayBuffer] of [./utils] is not
    among the sources.  The spec has each audio payload decoded before
    it is played, and the payload is base64 text; this is the standard
    alphabet with optional [=] padding, and any other character makes
    the decoder throw. *)
Definition base64ToArrayBuffer (base64 : string) : JsError + list byte :=
  match sextets base64 with
  | Some ns =>
      if (length ns mod 4 =? 1)%nat
      then inl "InvalidCharacterError"
      else inr (octets ns)
  | None => inl "InvalidCharacterError"
  end.

End Base64.

(* ================================================================== *)
(** ** Snapshots and references *)
(* ================================================================== *)

(** The client never writes into an object it has published: every
    update builds a new state object, and every append a new array.  The
    definitions above rely on that and treat snapshots as values.  This
    module keeps the objects in a store instead, to see what code outside
    the client can reach through the references it is handed. *)
Module Store.

Definition loc := nat.

(** A state object; the log and the config are held by reference. *)
Record StateObject := {
  o_connected : bool;
  o_muted : bool;
  o_inVolume : number;
  o_outVolume : number;
  o_events : loc;
  o_model : string;
  o_config : loc
}.

Inductive Object :=
| StateObj (s : StateObject)
| EventArray (l : list LiveAPIEvent)
| ConfigObj (c : LiveConnectConfig).

(** The client: the store, the reference in [this._state], and the
    references handed to the listener so far. *)
Record Client := {
  heap : gmap loc Object;
  this_state : loc;
  listening : bool;
  inbox : list loc
}.

(** [Partial<LiveAPIState>] with references for the log and the config. *)
Record Updates := {
  u_connected : option bool;
  u_muted : option bool;
  u_inVolume : option number;
  u_outVolume : option number;
  u_events : option loc;
  u_model : option string;
  u_config : option loc
}.

Definition spreadObject (s : StateObject) (u : Updates) : StateObject :=
  {| o_connected := default (o_connected s) (u_connected u);
     o_muted := default (o_muted s) (u_muted u);
     o_inVolume := default (o_inVolume s) (u_inVolume u);
     o_outVolume := default (o_outVolume s) (u_outVolume u);
     o_events := default (o_events s) (u_events u);
     o_model := default (o_model s) (u_model u);
     o_config := default (o_config s) (u_config u) |}.

Definition eventsOnly (l : loc) : Updates :=
  {| u_connected := None; u_muted := None; u_inVolume := None;
     u_outVolume := None; u_events := Some l; u_model := None;
     u_config := None |}.

(** A new object gets a reference that is not in use. *)
Definition alloc (o : Object) (c : Client) : loc * Client :=
  let l := fresh (dom (heap c)) in
  (l, {| heap := <[l := o]> (heap c); this_state := this_state c;
         listening := listening c; inbox := inbox c |}).

Definition readState (h : gmap loc Object) (l : loc) : option StateObject :=
  match h !! l with
  | Some (StateObj s) => Some s
  | _ => None
  end.

Definition readEvents (h : gmap loc Object) (l : loc) : option (list LiveAPIEvent) :=
  match h !! l with
  | Some (EventArray es) => Some es
  | _ => None
  end.

Definition readConfig (h : gmap loc Object) (l : loc) : option LiveConnectConfig :=
  match h !! l with
  | Some (ConfigObj cfg) => Some cfg
  | _ => None
  end.

(** [updateState]: [this._state = { ...this._state, ...updates }], and the
    listener is handed [this._state] itself. *)
Definition updateState (u : Updates) (c : Client) : option Client :=
  s ← readState (heap c) (this_state c);
  let '(l, c1) := alloc (StateObj (spreadObject s u)) c in
  Some {| heap := heap c1; this_state := l; listening := listening c1;
          inbox := if listening c1 then inbox c1 ++ [l] else inbox c1 |}.

(** [addEvent]: [[...this._state.events, event]] is a new array, and so
    is its [slice(-150)]. *)
Definition addEvent (now : Z) (ty : EventType) (d : option EventData) (c : Client)
  : option Client :=
  s ← readState (heap c) (this_state c);
  es ← readEvents (heap c) (o_events s);
  let event := {| type := ty; timestamp := now; data := d |} in
  let '(newEvents, c1) := alloc (EventArray (es ++ [event])) c in
  if (200 <? length (es ++ [event]))%nat then
    let '(sliced, c2) := alloc (EventArray (JS.slice (-150) (es ++ [event]))) c1 in
    updateState (eventsOnly sliced) c2
  else updateState (eventsOnly newEvents) c1.

(** [getState()]: [{ ...this._state }], a new object with the same
    fields. *)
Definition getState (c : Client) : option (loc * Client) :=
  s ← readState (heap c) (this_state c);
  Some (alloc (StateObj s) c).

(** [get events()]: [this._state.events]. *)
Definition getEvents (c : Client) : option loc :=
  s ← readState (heap c) (this_state c);
  Some (o_events s).

(** What code outside the client can do with a reference: assign to
    fields of a state object, or change an array in place. *)
Definition assignFields (l : loc) (f : StateObject -> StateObject) (c : Client) : Client :=
  match heap c !! l with
  | Some (StateObj s) =>
      {| heap := <[l := StateObj (f s)]> (heap c); this_state := this_state c;
         listening := listening c; inbox := inbox c |}
  | _ => c
  end.

Definition mutateArray (l : loc) (f : list LiveAPIEvent -> list LiveAPIEvent)
    (c : Client) : Client :=
  match heap c !! l with
  | Some (EventArray es) =>
      {| heap := <[l := EventArray (f es)]> (heap c); this_state := this_state c;
         listening := listening c; inbox := inbox c |}
  | _ => c
  end.

(** The snapshot an object stands for. *)
Definition snapshotIn (h : gmap loc Object) (l : loc) : option LiveAPIState :=
  s ← readState h l;
  es ← readEvents h (o_events s);
  cfg ← readConfig h (o_config s);
  Some {| connected := o_connected s; muted := o_muted s;
          inVolume := o_inVolume s; outVolume := o_outVolume s;
          events := es; model := o_model s; config := cfg |}.

Definition snapshotAt (l : loc) (c : Client) : option LiveAPIState :=
  snapshotIn (heap c) l.

(** The client's internal state, read through [this._state]. *)
Definition internal (c : Client) : option LiveAPIState :=
  snapshotAt (this_state c) c.

(** A new client in the store. *)
Definition newClient (listen : bool) : Client :=
  {| heap := {[ 0 := StateObj {| o_connected := false; o_muted := false;
                                 o_inVolume := 0%Z; o_outVolume := 0%Z;
                                 o_events := 1;
                                 o_model := model initialState;
                                 o_config := 2 |};
                1 := EventArray [];
                2 := ConfigObj (config initialState) ]};
     this_state := 0;
     listening := listen;
     inbox := [] |}.

(** The client after the transport has opened once. *)
Definition afterOpen : Client :=
  default (newClient true) (addEvent 1000 Ev_open None (newClient true)).

(** The store after [getState()] has been called on it. *)
Definition snapshotTaken : Client :=
  default afterOpen (snd <$> getState afterOpen).

(** A snapshot is read from three objects. *)
Definition snapshotOf (s : StateObject) (es : list LiveAPIEvent)
    (cfg : LiveConnectConfig) : LiveAPIState :=
  {| connected := o_connected s; muted := o_muted s;
     inVolume := o_inVolume s; outVolume := o_outVolume s;
     events := es; model := o_model s; config := cfg |}.

End Store.

(* ================================================================== *)
(** ** Vocabulary of the statements *)
(* ================================================================== *)

(** What one append does to a log. *)
Definition appendLog (l : list LiveAPIEvent) (e : LiveAPIEvent) : list LiveAPIEvent :=
  let newEvents := l ++ [e] in
  if (200 <? length newEvents)%nat then JS.slice (-150) newEvents else newEvents.

(** The world after the listener, if any, has been handed the snapshot. *)
Definition deliver (w : World) : World :=
  if onStateChange w then set_delivered (delivered w ++ [_state w]) w else w.

(** The world after [updateState updates]. *)
Definition commit (updates : PartialState) (w : World) : World :=
  deliver (set_state (spread (_state w) updates) w).

(** The world after [addEvent ty d]. *)
Definition logged (ty : EventType) (d : option EventData) (w : World) : World :=
  commit (upd_events
            (appendLog (log w) {| type := ty; timestamp := clock w; data := d |})) w.

(** Two hundred appends: as many as the log holds. *)
Definition twoHundred : list (EventType * option EventData) :=
  replicate 200 (Ev_audio, Some (D_audio 2)).

(** The two tests of the loop of [sendRealtimeInput], and the label they
    give a batch. *)
Definition containsAudio (ch : Chunk) : bool := JS.includes "audio" (chunk_mimeType ch).
Definition containsImage (ch : Chunk) : bool := JS.includes "image" (chunk_mimeType ch).

Definition classification (chunks : list Chunk) : string :=
  match existsb containsAudio chunks, existsb containsImage chunks with
  | true, true => "audio+video"
  | true, false => "audio"
  | false, true => "video"
  | false, false => "unknown"
  end.

(** A message of the server-content case: none of the cases that
    [onMessage] tries first. *)
Definition isServerContent (message : LiveServerMessage) (sc : LiveServerContent) : Prop :=
  setupComplete message = None /\
  toolCall message = None /\
  toolCallCancellation message = None /\
  serverContent message = Some sc.

(** In the words of the specification, not of the code: the text [sub]
    occurs in the text [s]; the text [s] begins with [pre]. *)
Definition occursIn (sub s : string) : Prop :=
  exists before after : string, s = (before ++ sub ++ after)%string.

Definition beginsWith (pre s : string) : Prop :=
  exists rest : string, s = (pre ++ rest)%string.

(** Some chunk of the batch has a media type in which [sub] occurs. *)
Definition mentions (sub : string) (chunks : list Chunk) : Prop :=
  exists ch, In ch chunks /\ occursIn sub (chunk_mimeType ch).

(** A raw-PCM audio part in the words of the specification: an inline
    payload whose media type is ["audio/pcm"] followed by anything, a
    sample rate as in ["audio/pcm;rate=24000"] for one. *)
Definition rawPCM (p : Part) : Prop :=
  exists blob, inlineData p = Some blob /\
    exists mime, mimeType blob = Some mime /\ beginsWith "audio/pcm" mime.

(** A raw-PCM audio part whose data is the non-empty base64 text
    [b64]. *)
Definition audioPCM (p : Part) (b64 : string) : Prop :=
  rawPCM p /\
  (exists blob, inlineData p = Some blob /\ blob_data blob = Some b64) /\
  b64 <> EmptyString.

(** The parts of a turn, split in the words of the specification into
    the raw-PCM audio parts and all other parts, each in their order. *)
Inductive partitioned : list Part -> list Part -> list Part -> Prop :=
| partitioned_nil : partitioned [] [] []
| partitioned_audio p ps audio others :
    rawPCM p -> partitioned ps audio others ->
    partitioned (p :: ps) (p :: audio) others
| partitioned_other p ps audio others :
    ~ rawPCM p -> partitioned ps audio others ->
    partitioned (p :: ps) audio (p :: others).

(** The world after one audio chunk has been enqueued and logged. *)
Definition played (bytes : list byte) (w : World) : World :=
  logged Ev_audio (Some (D_audio (length bytes)))
    (exec (streamerCall (AddPCM16 bytes)) w).

(** The world after the [turnComplete] check. *)
Definition turnChecked (sc : LiveServerContent) (w : World) : World :=
  match turnComplete sc with
  | Some _ => logged Ev_turncomplete None w
  | None => w
  end.

(** A response answers a call when it carries the call's id and name. *)
Definition answers (r : FunctionResponse) (fc : FunctionCall) : Prop :=
  fr_id r = fc_id fc /\ fr_name r = fc_name fc.

(** The chunk built from one frame of the capture device. *)
Definition micChunk (base64 : string) : Chunk :=
  {| chunk_mimeType := "audio/pcm;rate=16000"; chunk_data := base64 |}.

(** A frame is forwarded when the callback puts something on the wire. *)
Definition forwarded (base64 : string) (w : World) : Prop :=
  wire (exec (onRecorderData base64) w) <> wire w.

(** A client is connecting while a call of [connect] is suspended:
    before [live.connect], or at it. *)
Definition connecting (w : World) : Prop := starting w <> [] \/ dialing w <> [].

(** The handles the transport has been asked to open. *)
Definition opened (w : World) : list Session :=
  omap (fun a => match a with LiveConnect h _ _ => Some h | _ => None end) (wire w).

Definition isLiveConnect (a : WireAction) : bool :=
  match a with
  | LiveConnect _ _ _ => true
  | _ => false
  end.

(** A computation maintains a property of worlds when the property, true
    of the world before, is true of the world after, however the
    computation completes. *)
Definition maintains (I : World -> Prop) {A} (m : Js A) : Prop :=
  forall w, I w -> I (snd (m w)).

Module Examples.

Definition decode := Base64.base64ToArrayBuffer.

Definition providers : list CallableTool :=
  [WeatherTool.tool; AltairTool.tool false (fun _ => None)].

(** A new client with a listener and the two providers, at time 1000. *)
Definition idle : World := newClient true providers 1000.

(** [connect()] has been called and is suspended in
    [initAudioStreamer]. *)
Definition suspended : World := run decode [Connect None None] idle.

(** [connect()] has asked the transport for a connection, and the
    promise of [live.connect] has not settled. *)
Definition connecting : World :=
  run decode [StreamerAwaited 0 None; StreamerAwaited 0 None; ConnectResumes 0]
    suspended.

(** The transport has opened; [connect()] is still to resume. *)
Definition opened : World := run decode [TransportOpen] connecting.

(** [connect()] has returned [true]. *)
Definition live : World := run decode [ConnectSettles 0 None] opened.

Definition micFrame : Chunk :=
  {| chunk_mimeType := "audio/pcm;rate=16000"; chunk_data := "AAEC/w==" |}.

Definition cameraFrame : Chunk :=
  {| chunk_mimeType := "image/jpeg"; chunk_data := "/9j/4AAQ" |}.

End Examples.

Module Scenarios.
Import Examples.

Definition pcm (b64 : string) : Part := inlinePart "audio/pcm;rate=24000" b64.

Definition spokenTurn : LiveServerContent :=
  {| interrupted := None;
     turnComplete := None;
     modelTurn :=
       Some (Some {| parts := Some [pcm "AAEC/w=="; textPart "hello"; pcm "AAAA"] |}) |}.

(** A spoken turn whose two chunks come at different sample rates. *)
Definition twoRates : LiveServerContent :=
  {| interrupted := None;
     turnComplete := None;
     modelTurn :=
       Some (Some {| parts := Some [pcm "AAEC/w=="; textPart "hello";
                                    inlinePart "audio/pcm;rate=16000" "AAAA"] |}) |}.

Definition cutShort : LiveServerContent :=
  {| interrupted := Some true;
     turnComplete := Some true;
     modelTurn := Some (Some {| parts := Some [pcm "AAAA"; textPart "never mind"] |}) |}.

Definition content (sc : LiveServerContent) : LiveServerMessage :=
  {| setupComplete := None; toolCall := None; toolCallCancellation := None;
     serverContent := Some sc |}.

Definition weatherCall (id location : string) : FunctionCall :=
  {| fc_id := Some id; fc_name := Some WeatherTool.name;
     fc_args := Some [("location", location)] |}.

Definition twoCities : LiveServerToolCall :=
  {| functionCalls :=
       Some [weatherCall "call-1" "London, UK"; weatherCall "call-2" "Tokyo, Japan"] |}.

Definition request (tc : LiveServerToolCall) : LiveServerMessage :=
  {| setupComplete := None; toolCall := Some tc; toolCallCancellation := None;
     serverContent := None |}.

Definition weatherReport (id location temperature condition humidity : string)
  : FunctionResponse :=
  {| fr_id := Some id;
     fr_name := Some WeatherTool.name;
     fr_response := Some (JObj
       [("weather", JObj
          [("location", JStr location);
           ("temperature", JStr temperature);
           ("condition", JStr condition);
           ("humidity", JStr humidity);
           ("forecast",
            JStr "Stable conditions expected for the next 24 hours")])]) |}.


Definition tokyo : FunctionResponse :=
  weatherReport "call-2" "Tokyo, Japan" "78°F" "Clear" "62%".

End Scenarios.

(* ================================================================== *)
(** ** Vocabulary of the further properties *)
(* ================================================================== *)

(** The world after [this.audioRecorder?.start()] or [.stop()]. *)
Definition recorderTold (c : RecorderCall) (w : World) : World :=
  match audioRecorder w with
  | Some r =>
      set_audioRecorder (Some {| recorderCalls := recorderCalls r ++ [c] |}) w
  | None => w
  end.

(** The world after a call on [this.audioStreamer?]. *)
Definition streamerTold (c : StreamerCall) (w : World) : World :=
  match audioStreamer w with
  | Some a =>
      set_audioStreamer (Some {| streamerCalls := streamerCalls a ++ [c] |}) w
  | None => w
  end.

(** The world after one more action on the wire. *)
Definition sent (a : WireAction) (w : World) : World :=
  set_wire (wire w ++ [a]) w.

(** What the provider loop of [handleToolCalls] collects: the parts of
    all providers, in the order of the providers, or the first
    rejection. *)
Fixpoint gather (ts : list CallableTool) (fcs : list FunctionCall)
  : JsError + list Part :=
  match ts with
  | [] => inr []
  | t :: rest =>
      match callTool t fcs with
      | inl e => inl e
      | inr ps =>
          match gather rest fcs with
          | inl e => inl e
          | inr qs => inr (ps ++ qs)
          end
      end
  end.

(** The calls a provider of the given name recognises. *)
Definition named (n : string) (fc : FunctionCall) : bool :=
  bool_decide (fc_name fc = Some n).

(** The base64 payloads of audio parts, missing and empty ones left
    out. *)
Definition payloadsOf (audio : list Part) : list string :=
  omap (fun p =>
          match inlineData p with
          | Some blob =>
              match blob_data blob with
              | Some b => if String.eqb b EmptyString then None else Some b
              | None => None
              end
          | None => None
          end) audio.

(** The base64 payloads [onMessage] plays: those of the audio parts,
    missing and empty ones left out. *)
Definition payloads (ps : list Part) : list string :=
  omap (fun p =>
          match inlineBase64 p with
          | Some b => if String.eqb b EmptyString then None else Some b
          | None => None
          end)
       (List.filter isAudioPart ps).

(** Decoding payloads in order: the chunks decoded before the first
    failure, and that failure if there is one. *)
Fixpoint decodeUntilFailure (decode : string -> JsError + list byte)
    (bs : list string) : list (list byte) * option JsError :=
  match bs with
  | [] => ([], None)
  | b :: rest =>
      match decode b with
      | inl e => ([], Some e)
      | inr bytes =>
          let '(chunks, failure) := decodeUntilFailure decode rest in
          (bytes :: chunks, failure)
      end
  end.

(** The world after the chunks have been enqueued and logged, one after
    the other. *)
Definition playedAll (chunks : list (list byte)) (w : World) : World :=
  fold_left (fun v bytes => played bytes v) chunks w.

(** The world after the content entry, if there are parts for one. *)
Definition contentLogged (others : list Part) (w : World) : World :=
  match others with
  | [] => w
  | _ :: _ => logged Ev_content (Some (D_content others)) w
  end.

(** Where [initAudioStreamer] stands after its first stretch. *)
Definition streamerFound (w : World) : StreamerProgress :=
  match audioStreamer w with
  | None => AwaitingAudioContext
  | Some _ => StreamerInPlace
  end.

(** The world after an [initAudioStreamer] that ran without
    interruption. *)
Definition streamerReady (w : World) : World :=
  match audioStreamer w with
  | None => set_audioStreamer (Some {| streamerCalls := [] |}) w
  | Some _ => w
  end.

(** The world after the second stretch of [connect(m, c)], which began
    in [w]. *)
Definition resumed (m : option string) (c : option LiveConnectConfig) (w : World)
  : World :=
  let w2 :=
    commit {| p_connected := None; p_muted := None; p_inVolume := None;
              p_outVolume := None; p_events := None;
              p_model := Some (JS.orElse m (model (_state w)));
              p_config := Some (default (config (_state w)) c) |} w in
  let h := length (wire w) in
  set_dialing (dialing w ++ [h])
    (sent (LiveConnect h (model (_state w2)) (config (_state w2))) w2).

(** The world after [connect(m, c)] has been called and suspended. *)
Definition called (m : option string) (c : option LiveConnectConfig) (w : World)
  : World :=
  set_starting
    (starting w ++ [{| call_model := m; call_config := c;
                       call_streamer := streamerFound w |}]) w.

(** The world in which an undisturbed [connect(m, c)] that was not
    refused awaits [live.connect]. *)
Definition dialled (m : option string) (c : option LiveConnectConfig) (w : World)
  : World :=
  resumed m c (streamerReady w).

(** No call of [connect] is past the creation of the playback sink
    while there is no sink. *)
Definition sinkBeforeResume (w : World) : Prop :=
  forall call, In call (starting w) ->
               call_streamer call <> AwaitingAudioContext ->
               audioStreamer w <> None.

(** The operations that belong to a call of [connect] before it reaches
    [live.connect]. *)
Definition startsConnect (o : Op) : bool :=
  match o with
  | Connect _ _ | StreamerAwaited _ _ | ConnectResumes _ => true
  | _ => false
  end.

(** The listener has seen the state the client is in. *)
Definition listenerUpToDate (w : World) : Prop :=
  onStateChange w = true /\
  (last (delivered w) = Some (_state w) \/
   (delivered w = [] /\ _state w = initialState)).

(** A part that is a function response answering the call. *)
Definition answerTo (p : Part) (fc : FunctionCall) : Prop :=
  exists r, p = responsePart r /\ answers r fc.


(* ================================================================== *)
(** ** Equations of the primitives *)
(* ================================================================== *)

Lemma updateState_eq updates w :
  updateState updates w = (Normal tt, commit updates w).
Proof.
  destruct w as [? ? ? ? [] ? ? ? ? ? ? ?]; reflexivity.
Qed.

Lemma addEvent_eq ty d w : addEvent ty d w = (Normal tt, logged ty d w).
Proof.
  unfold addEvent, logged, appendLog, newDate, bind, get, ret, log. simpl.
  destruct (200 <? length _)%nat; apply updateState_eq.
Qed.

(** [updateState] writes the snapshot and the listener's inbox only. *)
Ltac frame :=
  intros;
  match goal with
  | w : World |- _ => destruct w as [? ? ? ? [] ? ? ? ? ? ? ?]; reflexivity
  end.

Lemma commit_state updates w :
  _state (commit updates w) = spread (_state w) updates.
Proof. frame. Qed.

Lemma commit_session updates w : session (commit updates w) = session w.
Proof. frame. Qed.

Lemma commit_audioStreamer updates w : audioStreamer (commit updates w) = audioStreamer w.
Proof. frame. Qed.

Lemma commit_audioRecorder updates w : audioRecorder (commit updates w) = audioRecorder w.
Proof. frame. Qed.

Lemma commit_onStateChange updates w : onStateChange (commit updates w) = onStateChange w.
Proof. frame. Qed.

Lemma commit_tools updates w : tools (commit updates w) = tools w.
Proof. frame. Qed.

Lemma commit_clock updates w : clock (commit updates w) = clock w.
Proof. frame. Qed.

Lemma commit_wire updates w : wire (commit updates w) = wire w.
Proof. frame. Qed.

Lemma commit_dialing updates w : dialing (commit updates w) = dialing w.
Proof. frame. Qed.

Lemma commit_starting updates w : starting (commit updates w) = starting w.
Proof. frame. Qed.

Lemma commit_console updates w : console (commit updates w) = console w.
Proof. frame. Qed.

Lemma commit_delivered updates w :
  delivered (commit updates w)
  = if onStateChange w then delivered w ++ [spread (_state w) updates]
    else delivered w.
Proof. frame. Qed.

Create Rewrite HintDb world.
#[export] Hint Rewrite commit_state commit_session commit_audioStreamer
  commit_audioRecorder commit_onStateChange commit_tools commit_clock
  commit_wire commit_dialing commit_starting commit_console commit_delivered
  : world.

Lemma logged_log ty d w :
  log (logged ty d w)
  = appendLog (log w) {| type := ty; timestamp := clock w; data := d |}.
Proof. unfold logged, log. rewrite commit_state. reflexivity. Qed.

(** An append touches the snapshot's log and nothing else in it. *)
Lemma logged_state ty d w :
  _state (logged ty d w)
  = spread (_state w)
      (upd_events (appendLog (log w) {| type := ty; timestamp := clock w; data := d |})).
Proof. unfold logged. apply commit_state. Qed.

(* ================================================================== *)
(** ** The event log is bounded *)
(* ================================================================== *)

Lemma slice_last_150 {A} (l : list A) :
  JS.slice (-150) l = drop (length l - 150) l.
Proof.
  unfold JS.slice. simpl. f_equal. lia.
Qed.

Lemma appendLog_length l e :
  length l <= 200 -> length (appendLog l e) <= 200.
Proof.
  intros Hl. unfold appendLog.
  destruct (Nat.ltb_spec 200 (length (l ++ [e]))) as [Hover | Hfits].
  - rewrite slice_last_150, length_drop, length_app in *. simpl in *. lia.
  - exact Hfits.
Qed.

Lemma appendLog_overflow l e :
  200 < length (l ++ [e]) ->
  appendLog l e = drop (length (l ++ [e]) - 150) (l ++ [e]).
Proof.
  intros Hover. unfold appendLog.
  destruct (Nat.ltb_spec 200 (length (l ++ [e]))); [apply slice_last_150 | lia].
Qed.

Lemma appendLog_fits l e :
  length (l ++ [e]) <= 200 -> appendLog l e = l ++ [e].
Proof.
  intros Hfits. unfold appendLog.
  destruct (Nat.ltb_spec 200 (length (l ++ [e]))); [lia | reflexivity].
Qed.

Lemma appendAll_bounded appends :
  forall w, length (log w) <= 200 ->
            length (log (exec (appendAll appends) w)) <= 200.
Proof.
  induction appends as [| [ty d] rest IH]; intros w Hw.
  - exact Hw.
  - unfold exec in *. simpl. unfold bind. rewrite addEvent_eq.
    apply IH. rewrite logged_log. now apply appendLog_length.
Qed.

(** C1.  Whatever appends are made with [addEvent], starting from a log
    of at most 200 entries (the empty log of a new client is one), the
    log never holds more than 200 entries.  The append that would take it
    past 200 leaves exactly the 150 most recent entries, in their order:
    the 51 oldest are dropped in one batch. *)
Theorem addEvent_log_bounded :
  forall (w : World) (appends : list (EventType * option EventData)),
    length (log w) <= 200 ->
    let w' := exec (appendAll appends) w in
    length (log w') <= 200 /\
    forall (ty : EventType) (d : option EventData),
      let newEvents :=
        log w' ++ [{| type := ty; timestamp := clock w'; data := d |}] in
      200 < length newEvents ->
      let kept := log (exec (addEvent ty d) w') in
      kept = drop (length newEvents - 150) newEvents /\
      length kept = 150 /\
      newEvents = take 51 newEvents ++ kept.
Proof.
  intros w appends Hw w'.
  assert (Hw' : length (log w') <= 200) by now apply appendAll_bounded.
  split; [exact Hw' |].
  intros ty d newEvents Hover kept.
  assert (Hlen : length newEvents = 201).
  { unfold newEvents in *. rewrite length_app in *. simpl in *. lia. }
  assert (Hkept : kept = drop 51 newEvents).
  { unfold kept, exec. rewrite addEvent_eq. simpl. rewrite logged_log.
    fold newEvents. rewrite appendLog_overflow by exact Hover.
    fold newEvents. rewrite Hlen. reflexivity. }
  rewrite Hkept, Hlen. repeat split.
  - rewrite length_drop. lia.
  - symmetry. apply take_drop.
Qed.

Lemma addEvent_log_bounded_witness :
  length (log (exec (appendAll twoHundred) (newClient true [] 0))) = 200 /\
  length (log (exec (addEvent Ev_open None)
                    (exec (appendAll twoHundred) (newClient true [] 0)))) = 150.
Proof.
  assert (H0 : length (log (newClient true [] 0)) <= 200) by (simpl; lia).
  pose proof (addEvent_log_bounded (newClient true [] 0) twoHundred H0) as [_ Hover].
  split; [vm_compute; reflexivity |].
  apply (Hover Ev_open None). vm_compute. lia.
Defined.

(* ================================================================== *)
(** ** Stepping through monadic code *)
(* ================================================================== *)

Arguments addEvent : simpl never.
Arguments updateState : simpl never.

Lemma bind_normal {A B} (m : Js A) (k : A -> Js B) w a w' :
  m w = (Normal a, w') -> bind m k w = k a w'.
Proof. intros H. unfold bind. rewrite H. reflexivity. Qed.

Lemma bind_throw {A B} (m : Js A) (k : A -> Js B) w e w' :
  m w = (Throw e, w') -> bind m k w = (Throw e, w').
Proof. intros H. unfold bind. rewrite H. reflexivity. Qed.

Lemma recorderCall_eq c w r :
  audioRecorder w = Some r ->
  recorderCall c w
  = (Normal tt, set_audioRecorder (Some {| recorderCalls := recorderCalls r ++ [c] |}) w).
Proof. intros H. unfold recorderCall, bind, get, modify. rewrite H. reflexivity. Qed.

Lemma streamerCall_eq c w a :
  audioStreamer w = Some a ->
  streamerCall c w
  = (Normal tt, set_audioStreamer (Some {| streamerCalls := streamerCalls a ++ [c] |}) w).
Proof. intros H. unfold streamerCall, bind, get, modify. rewrite H. reflexivity. Qed.

Lemma streamerCall_normal c w :
  streamerCall c w = (Normal tt, exec (streamerCall c) w).
Proof.
  unfold exec, streamerCall, bind, get, modify.
  destruct (audioStreamer w); reflexivity.
Qed.

Lemma sessionCall_eq action w h :
  session w = Some h ->
  sessionCall action w = (Normal tt, set_wire (wire w ++ [action h]) w).
Proof. intros H. unfold sessionCall, bind, get, transmit, modify. rewrite H. reflexivity. Qed.

(* ================================================================== *)
(** ** Prefixes and substrings *)
(* ================================================================== *)

(** [startsWith] and [includes] decide what their names say. *)
Lemma startsWith_beginsWith (p s : string) :
  JS.startsWith p s = true <-> beginsWith p s.
Proof.
  unfold beginsWith. revert s. induction p as [| a p IH]; intros s; simpl.
  - split; [intros _; exists s; reflexivity | reflexivity].
  - destruct s as [| b s].
    + split; [discriminate | intros [rest H]; discriminate H].
    + destruct (Ascii.eqb_spec a b) as [-> | Hne].
      * rewrite IH. split; intros [rest H]; exists rest.
        -- rewrite H. reflexivity.
        -- injection H as H. exact H.
      * split; [discriminate | intros [rest H]; injection H as H _; congruence].
Qed.

Lemma includes_occursIn (p s : string) :
  JS.includes p s = true <-> occursIn p s.
Proof.
  unfold occursIn. induction s as [| b s IH].
  - simpl. rewrite orb_false_r, startsWith_beginsWith. split.
    + intros [rest H]. exists EmptyString, rest. exact H.
    + intros (before & after & H). destruct before as [| a before].
      * exists after. exact H.
      * discriminate H.
  - change (JS.includes p (String b s))
      with (JS.startsWith p (String b s) || JS.includes p s).
    rewrite orb_true_iff, startsWith_beginsWith, IH. split.
    + intros [[rest H] | (before & after & H)].
      * exists EmptyString, rest. exact H.
      * exists (String b before), after. rewrite H. reflexivity.
    + intros (before & after & H). destruct before as [| a before].
      * left. exists after. exact H.
      * right. injection H as _ H. exists before, after. exact H.
Qed.

Lemma existsb_containing (sub : string) (chunks : list Chunk) :
  existsb (fun ch => JS.includes sub (chunk_mimeType ch)) chunks = true
  <-> mentions sub chunks.
Proof.
  unfold mentions. rewrite List.existsb_exists.
  split; intros (ch & Hin & H); exists ch; (split; [exact Hin |]);
    apply includes_occursIn; exact H.
Qed.

(** The filter of [onMessage] keeps the raw-PCM audio parts. *)
Lemma isAudioPart_rawPCM (p : Part) : isAudioPart p = true <-> rawPCM p.
Proof.
  unfold isAudioPart, rawPCM. destruct (inlineData p) as [blob |].
  - destruct (mimeType blob) as [mime |] eqn:Hm.
    + rewrite startsWith_beginsWith. split.
      * intros H. exists blob. split; [reflexivity |]. exists mime. auto.
      * intros (blob' & Hb & mime' & Hm' & H). congruence.
    + split; [discriminate |].
      intros (blob' & Hb & mime' & Hm' & _). congruence.
  - split; [discriminate | intros (blob' & Hb & _); discriminate Hb].
Qed.

Lemma isAudioPart_not_rawPCM (p : Part) : isAudioPart p = false <-> ~ rawPCM p.
Proof.
  rewrite <- isAudioPart_rawPCM. destruct (isAudioPart p); split; congruence.
Qed.

(** The split of the specification is the one the two filters make. *)
Lemma partitioned_filters (ps audio others : list Part) :
  partitioned ps audio others <->
  audio = List.filter isAudioPart ps /\
  others = List.filter (fun p => negb (isAudioPart p)) ps.
Proof.
  split.
  - induction 1 as [| p ps audio others Hp _ [-> ->]
                    | p ps audio others Hp _ [-> ->]]; simpl.
    + split; reflexivity.
    + apply isAudioPart_rawPCM in Hp. rewrite Hp. split; reflexivity.
    + apply isAudioPart_not_rawPCM in Hp. rewrite Hp. split; reflexivity.
  - intros [-> ->]. induction ps as [| p ps IH]; simpl.
    + constructor.
    + destruct (isAudioPart p) eqn:Hp; simpl.
      * apply partitioned_audio; [apply isAudioPart_rawPCM; exact Hp | exact IH].
      * apply partitioned_other; [apply isAudioPart_not_rawPCM; exact Hp | exact IH].
Qed.

(* ================================================================== *)
(** ** Realtime input *)
(* ================================================================== *)

Lemma sendChunks_eq chunks :
  forall hasAudio hasVideo w h,
    session w = Some h ->
    sendChunks chunks hasAudio hasVideo w
    = (Normal (hasAudio || existsb containsAudio chunks,
               hasVideo || existsb containsImage chunks),
       set_wire (wire w ++ List.map (SendRealtimeInput h) chunks) w).
Proof.
  induction chunks as [| ch rest IH]; intros hasAudio hasVideo w h Hs.
  - simpl. rewrite !orb_false_r, app_nil_r. destruct w; reflexivity.
  - simpl. erewrite bind_normal by (apply sessionCall_eq; exact Hs).
    rewrite (IH _ _ _ h) by exact Hs. simpl.
    fold (containsAudio ch) (containsImage ch).
    rewrite <- app_assoc. simpl.
    destruct (containsAudio ch), (containsImage ch), hasAudio, hasVideo;
      reflexivity.
Qed.

Lemma mediaTypeOf_classification chunks :
  mediaTypeOf (existsb containsAudio chunks) (existsb containsImage chunks)
  = classification chunks.
Proof.
  unfold mediaTypeOf, classification.
  destruct (existsb containsAudio chunks), (existsb containsImage chunks);
    reflexivity.
Qed.

Lemma sendRealtimeInput_eq chunks w h :
  session w = Some h ->
  sendRealtimeInput chunks w
  = (Normal tt,
     logged Ev_client_realtimeInput
       (Some (D_realtimeInput (classification chunks)))
       (set_wire (wire w ++ List.map (SendRealtimeInput h) chunks) w)).
Proof.
  intros Hs. unfold sendRealtimeInput. unfold bind at 1, get. rewrite Hs.
  erewrite bind_normal by (apply sendChunks_eq; exact Hs).
  simpl. rewrite mediaTypeOf_classification. apply addEvent_eq.
Qed.

(** The label in the words of the specification. *)
Lemma classification_mentions (chunks : list Chunk) :
  (classification chunks = "audio+video"
   <-> mentions "audio" chunks /\ mentions "image" chunks) /\
  (classification chunks = "audio"
   <-> mentions "audio" chunks /\ ~ mentions "image" chunks) /\
  (classification chunks = "video"
   <-> ~ mentions "audio" chunks /\ mentions "image" chunks) /\
  (classification chunks = "unknown"
   <-> ~ mentions "audio" chunks /\ ~ mentions "image" chunks).
Proof.
  pose proof (existsb_containing "audio" chunks) as Ha.
  pose proof (existsb_containing "image" chunks) as Hi.
  change (existsb _ chunks) with (existsb containsAudio chunks) in Ha.
  change (existsb _ chunks) with (existsb containsImage chunks) in Hi.
  unfold classification.
  destruct (existsb containsAudio chunks), (existsb containsImage chunks);
    intuition (try discriminate; try congruence).
Qed.

(** C7, as the code has it.  With an active session,
    [sendRealtimeInput chunks] puts every chunk on the wire as a
    realtime-input message of its own, in order, and then appends one log
    entry for the whole batch.  Its media type is ["audio+video"] when
    the text ["audio"] occurs in some chunk's media type and the text
    ["image"] occurs in some chunk's media type, ["audio"] or ["video"]
    when only the first or only the second is so, and ["unknown"]
    otherwise.  A batch of an [audio/pcm] chunk and an [image/jpeg] chunk
    is classified ["audio+video"]. *)
Theorem sendRealtimeInput_forwards_and_summarizes :
  forall (w : World) (h : Session) (chunks : list Chunk),
    session w = Some h ->
    let w' := exec (sendRealtimeInput chunks) w in
    exists mediaType : string,
      sendRealtimeInput chunks w
      = (Normal tt,
         logged Ev_client_realtimeInput (Some (D_realtimeInput mediaType))
           (set_wire (wire w ++ List.map (SendRealtimeInput h) chunks) w)) /\
      wire w' = wire w ++ List.map (SendRealtimeInput h) chunks /\
      log w' = appendLog (log w)
                 {| type := Ev_client_realtimeInput;
                    timestamp := clock w;
                    data := Some (D_realtimeInput mediaType) |} /\
      (mediaType = "audio+video"
       <-> mentions "audio" chunks /\ mentions "image" chunks) /\
      (mediaType = "audio"
       <-> mentions "audio" chunks /\ ~ mentions "image" chunks) /\
      (mediaType = "video"
       <-> ~ mentions "audio" chunks /\ mentions "image" chunks) /\
      (mediaType = "unknown"
       <-> ~ mentions "audio" chunks /\ ~ mentions "image" chunks) /\
      (forall rate pcm jpeg : string,
          chunks = [ {| chunk_mimeType := "audio/pcm" ++ rate; chunk_data := pcm |};
                     {| chunk_mimeType := "image/jpeg"; chunk_data := jpeg |} ] ->
          mediaType = "audio+video").
Proof.
  intros w h chunks Hs w'.
  pose proof (sendRealtimeInput_eq chunks w h Hs) as Heq.
  destruct (classification_mentions chunks) as (Hav & Ha & Hv & Hu).
  exists (classification chunks).
  split; [exact Heq |].
  unfold w', exec. rewrite Heq. simpl.
  split; [unfold logged; rewrite commit_wire; reflexivity |].
  split; [rewrite logged_log; reflexivity |].
  split; [exact Hav |]. split; [exact Ha |]. split; [exact Hv |].
  split; [exact Hu |].
  intros rate pcm jpeg ->. apply Hav. split.
  - eexists. split; [left; reflexivity |].
    exists EmptyString, ("/pcm" ++ rate)%string. reflexivity.
  - eexists. split; [right; left; reflexivity |].
    exists EmptyString, "/jpeg". reflexivity.
Qed.

Lemma sendRealtimeInput_forwards_and_summarizes_witness :
  session Examples.live = Some 0 /\
  wire (exec (sendRealtimeInput [Examples.micFrame; Examples.cameraFrame])
             Examples.live)
  = wire Examples.live
    ++ [SendRealtimeInput 0 Examples.micFrame;
        SendRealtimeInput 0 Examples.cameraFrame] /\
  last (log (exec (sendRealtimeInput [Examples.micFrame; Examples.cameraFrame])
                  Examples.live))
  = Some {| type := Ev_client_realtimeInput; timestamp := 1000;
            data := Some (D_realtimeInput "audio+video") |}.
Proof.
  assert (Hs : session Examples.live = Some 0) by reflexivity.
  split; [exact Hs |].
  destruct (sendRealtimeInput_forwards_and_summarizes Examples.live 0
              [Examples.micFrame; Examples.cameraFrame] Hs)
    as (mediaType & _ & Hwire & Hlog & _ & _ & _ & _ & Hboth).
  split; [exact Hwire |].
  rewrite Hlog, (Hboth ";rate=16000" "AAEC/w==" "/9j/4AAQ" eq_refl).
  reflexivity.
Defined.

(** Against C7 as stated.  A media type that names video without the
    text ["image"] does not count as video: with a microphone frame, a
    [video/mp4] chunk makes a batch labelled ["audio"], and on its own
    one labelled ["unknown"]. *)
Lemma video_chunk_is_not_counted_as_video :
  let clip := {| chunk_mimeType := "video/mp4"; chunk_data := "AAAA" |} in
  session Examples.live = Some 0 /\
  last (log (exec (sendRealtimeInput [Examples.micFrame; clip]) Examples.live))
  = Some {| type := Ev_client_realtimeInput; timestamp := 1000;
            data := Some (D_realtimeInput "audio") |} /\
  last (log (exec (sendRealtimeInput [clip]) Examples.live))
  = Some {| type := Ev_client_realtimeInput; timestamp := 1000;
            data := Some (D_realtimeInput "unknown") |}.
Proof.
  intros clip. split; [reflexivity |]. split; reflexivity.
Qed.

(* ================================================================== *)
(** ** Operations without a session *)
(* ================================================================== *)





(* ================================================================== *)
(** ** Muting *)
(* ================================================================== *)

(** C8.  While connected, [setMuted m] tells the recorder to stop
    ([m = true]) or to start ([m = false]) and changes the [muted] field
    of the snapshot only: [connected] stays [true], volumes, log, model
    and config are as before, the session handle is kept, and nothing,
    a close least of all, goes on the wire. *)
Theorem setMuted_changes_muted_only :
  forall (w : World) (m : bool) (r : AudioRecorder),
    connected (_state w) = true ->
    audioRecorder w = Some r ->
    let w' := exec (setMuted m) w in
    completion (setMuted m) w = Normal tt /\
    audioRecorder w'
    = Some {| recorderCalls :=
                recorderCalls r ++ [if m then RecStop else RecStart] |} /\
    _state w' = {| connected := true;
                   muted := m;
                   inVolume := inVolume (_state w);
                   outVolume := outVolume (_state w);
                   events := events (_state w);
                   model := model (_state w);
                   config := config (_state w) |} /\
    session w' = session w /\
    wire w' = wire w /\
    audioStreamer w' = audioStreamer w /\
    tools w' = tools w.
Proof.
  intros w m r Hc Hr w'.
  assert (Heq : setMuted m w
    = (Normal tt,
       set_audioRecorder
         (Some {| recorderCalls := recorderCalls r ++ [if m then RecStop else RecStart] |})
         (commit (upd_muted m) w))).
  { unfold setMuted. erewrite bind_normal by apply updateState_eq.
    unfold bind at 1, get. rewrite commit_state. simpl. rewrite Hc. simpl.
    destruct m; apply recorderCall_eq; rewrite commit_audioRecorder; exact Hr. }
  unfold w', completion, exec. rewrite Heq. simpl.
  autorewrite with world. unfold spread, upd_muted. simpl. rewrite Hc.
  repeat split.
Qed.

Lemma setMuted_changes_muted_only_witness :
  connected (_state Examples.live) = true /\
  audioRecorder (exec (setMuted true) Examples.live)
  = Some {| recorderCalls := [RecStart; RecStop] |} /\
  connected (_state (exec (setMuted true) Examples.live)) = true.
Proof.
  assert (Hc : connected (_state Examples.live) = true) by reflexivity.
  assert (Hr : audioRecorder Examples.live = Some {| recorderCalls := [RecStart] |})
    by reflexivity.
  destruct (setMuted_changes_muted_only Examples.live true _ Hc Hr)
    as (_ & Hrec & Hst & _).
  split; [exact Hc |]. split; [exact Hrec |]. rewrite Hst. reflexivity.
Defined.

(* ================================================================== *)
(** ** Inbound server content *)
(* ================================================================== *)

Section ServerContent.

Variable decode : string -> JsError + list byte.

Lemma onMessage_serverContent message sc w :
  isServerContent message sc ->
  onMessage decode message w
  = match interrupted sc with
    | Some _ => (addEvent Ev_interrupted None ;; streamerCall StreamerStop) w
    | None =>
        (match turnComplete sc with
         | Some _ => addEvent Ev_turncomplete None
         | None => ret tt
         end ;;
         match modelTurn sc with
         | Some mt => onModelTurn decode mt
         | None => ret tt
         end) w
    end.
Proof.
  intros (H1 & H2 & H3 & H4). unfold onMessage.
  rewrite H1, H2, H3, H4. destruct (interrupted sc); reflexivity.
Qed.

(** C4.  A server-content message that carries the [interrupted] key
    makes the client append one [interrupted] entry and tell the
    playback sink to stop, and nothing else, whatever [turnComplete] or
    [modelTurn] the same message carries: the log gains that one entry,
    the streamer gets the one [stop] call and no audio, and nothing goes
    on the wire. *)
Theorem interrupted_is_the_only_effect :
  forall (w : World) (message : LiveServerMessage) (sc : LiveServerContent)
         (flag : bool) (a : AudioStreamer),
    isServerContent message sc ->
    interrupted sc = Some flag ->
    audioStreamer w = Some a ->
    let w' := exec (onMessage decode message) w in
    onMessage decode message w
    = (Normal tt,
       set_audioStreamer
         (Some {| streamerCalls := streamerCalls a ++ [StreamerStop] |})
         (logged Ev_interrupted None w)) /\
    log w' = appendLog (log w)
               {| type := Ev_interrupted; timestamp := clock w; data := None |} /\
    audioStreamer w' = Some {| streamerCalls := streamerCalls a ++ [StreamerStop] |} /\
    wire w' = wire w /\
    audioRecorder w' = audioRecorder w /\
    session w' = session w.
Proof.
  intros w message sc flag a Hsc Hint Ha w'.
  assert (Heq : onMessage decode message w
    = (Normal tt,
       set_audioStreamer
         (Some {| streamerCalls := streamerCalls a ++ [StreamerStop] |})
         (logged Ev_interrupted None w))).
  { rewrite (onMessage_serverContent _ sc) by exact Hsc. rewrite Hint.
    erewrite bind_normal by apply addEvent_eq.
    apply streamerCall_eq. unfold logged. rewrite commit_audioStreamer.
    exact Ha. }
  split; [exact Heq |].
  unfold w', exec. rewrite Heq. simpl. unfold log. simpl.
  unfold logged. autorewrite with world. repeat split.
Qed.

(** What the code sees of a raw-PCM part with a payload. *)
Lemma audioPCM_seen p b64 :
  audioPCM p b64 ->
  isAudioPart p = true /\ inlineBase64 p = Some b64 /\ b64 <> EmptyString.
Proof.
  intros (Hraw & (blob & Hblob & Hdata) & Hne).
  split; [apply isAudioPart_rawPCM; exact Hraw |].
  split; [unfold inlineBase64; rewrite Hblob; exact Hdata | exact Hne].
Qed.

Lemma playAudio_eq p b64 bytes w :
  audioPCM p b64 ->
  decode b64 = inr bytes ->
  playAudio decode (inlineBase64 p) w
  = (Normal tt,
     logged Ev_audio (Some (D_audio (length bytes)))
       (exec (streamerCall (AddPCM16 bytes)) w)).
Proof.
  intros Ha Hd. apply audioPCM_seen in Ha as (_ & Hb & Hne).
  unfold playAudio. rewrite Hb. simpl.
  destruct (String.eqb_spec b64 EmptyString); [contradiction |]. simpl.
  rewrite Hd. simpl.
  erewrite bind_normal by reflexivity.
  erewrite bind_normal by apply streamerCall_normal.
  apply addEvent_eq.
Qed.

(** C2.  For a server-content message without [interrupted] whose model
    turn has the parts [[a1; p; a2]], where [a1] and [a2] are inline
    payloads whose media type is ["audio/pcm"] followed by anything
    (["audio/pcm;rate=24000"], ["audio/pcm;rate=16000"], ...) and whose
    data decode to [bytes1] and [bytes2], and [p] is no such part (a text
    part never is): after the [turnComplete] check, the client enqueues
    and logs the first chunk, enqueues and logs the second, then logs one
    content entry whose parts are [[p]].  The two audio entries carry the
    byte lengths of the decoded chunks and no bytes. *)
Theorem modelTurn_audio_text_audio :
  forall (w : World) (message : LiveServerMessage) (sc : LiveServerContent)
         (mt : Content) (a1 p a2 : Part) (b1 b2 : string)
         (bytes1 bytes2 : list byte),
    isServerContent message sc ->
    interrupted sc = None ->
    modelTurn sc = Some (Some mt) ->
    parts mt = Some [a1; p; a2] ->
    audioPCM a1 b1 -> audioPCM a2 b2 ->
    (~ rawPCM p) ->
    decode b1 = inr bytes1 -> decode b2 = inr bytes2 ->
    let w0 := turnChecked sc w in
    let w' := exec (onMessage decode message) w in
    onMessage decode message w
    = (Normal tt,
       logged Ev_content (Some (D_content [p]))
         (played bytes2 (played bytes1 w0))) /\
    log w'
    = fold_left appendLog
        [ {| type := Ev_audio; timestamp := clock w;
             data := Some (D_audio (length bytes1)) |};
          {| type := Ev_audio; timestamp := clock w;
             data := Some (D_audio (length bytes2)) |};
          {| type := Ev_content; timestamp := clock w;
             data := Some (D_content [p]) |} ]
        (log w0).
Proof.
  intros w message sc mt a1 p a2 b1 b2 bytes1 bytes2
         Hsc Hint Hmt Hparts Ha1 Ha2 Hp Hd1 Hd2 w0 w'.
  assert (Hturn : match turnComplete sc with
                  | Some _ => addEvent Ev_turncomplete None
                  | None => ret tt
                  end w = (Normal tt, w0)).
  { unfold w0, turnChecked. destruct (turnComplete sc);
      [apply addEvent_eq | reflexivity]. }
  assert (Heq : onMessage decode message w
    = (Normal tt,
       logged Ev_content (Some (D_content [p]))
         (played bytes2 (played bytes1 w0)))).
  { rewrite (onMessage_serverContent _ sc) by exact Hsc. rewrite Hint, Hmt.
    erewrite bind_normal by exact Hturn.
    unfold onModelTurn. change (Some mt ≫= parts) with (parts mt).
    rewrite Hparts. simpl.
    destruct (audioPCM_seen _ _ Ha1) as (Hf1 & _), (audioPCM_seen _ _ Ha2) as (Hf2 & _).
    apply isAudioPart_not_rawPCM in Hp.
    rewrite Hf1, Hp, Hf2. simpl.
    erewrite bind_normal.
    2:{ erewrite bind_normal by (apply (playAudio_eq a1 b1 bytes1); [easy | exact Hd1]).
        erewrite bind_normal by (apply (playAudio_eq a2 b2 bytes2); [easy | exact Hd2]).
        reflexivity. }
    apply addEvent_eq. }
  split; [exact Heq |].
  unfold w', exec. rewrite Heq. simpl.
  assert (Hclock0 : clock w0 = clock w).
  { unfold w0, turnChecked. destruct (turnComplete sc);
      [unfold logged; apply commit_clock | reflexivity]. }
  assert (Hstream : forall c v, clock (exec (streamerCall c) v) = clock v).
  { intros c v. unfold exec, streamerCall, bind, get, modify.
    destruct (audioStreamer v); reflexivity. }
  assert (Hslog : forall c v, log (exec (streamerCall c) v) = log v).
  { intros c v. unfold exec, streamerCall, bind, get, modify.
    destruct (audioStreamer v); reflexivity. }
  assert (Hplayed_clock : forall bs v, clock (played bs v) = clock v).
  { intros bs v. unfold played, logged. rewrite commit_clock. apply Hstream. }
  assert (Hplayed_log : forall bs v,
    log (played bs v)
    = appendLog (log v) {| type := Ev_audio; timestamp := clock v;
                           data := Some (D_audio (length bs)) |}).
  { intros bs v. unfold played. rewrite logged_log, Hslog, Hstream. reflexivity. }
  rewrite logged_log, !Hplayed_log, !Hplayed_clock, Hclock0. reflexivity.
Qed.

End ServerContent.

(* ================================================================== *)
(** ** Tool calls *)
(* ================================================================== *)




Section ToolCalls.

Variable decode : string -> JsError + list byte.


End ToolCalls.

(* ================================================================== *)
(** ** The scenarios of the specification, run on the live client *)
(* ================================================================== *)

(** A turn at two sample rates, run on the live client. *)
Lemma modelTurn_audio_text_audio_witness :
  log (exec (onMessage Examples.decode (Scenarios.content Scenarios.twoRates))
            Examples.live)
  = log Examples.live
    ++ [ {| type := Ev_audio; timestamp := 1000; data := Some (D_audio 4) |};
         {| type := Ev_audio; timestamp := 1000; data := Some (D_audio 3) |};
         {| type := Ev_content; timestamp := 1000;
            data := Some (D_content [textPart "hello"]) |} ].
Proof.
  assert (H1 : audioPCM (Scenarios.pcm "AAEC/w==") "AAEC/w==").
  { split; [| split; [eexists; split; reflexivity | discriminate]].
    eexists. split; [reflexivity |]. eexists. split; [reflexivity |].
    exists ";rate=24000". reflexivity. }
  assert (H2 : audioPCM (inlinePart "audio/pcm;rate=16000" "AAAA") "AAAA").
  { split; [| split; [eexists; split; reflexivity | discriminate]].
    eexists. split; [reflexivity |]. eexists. split; [reflexivity |].
    exists ";rate=16000". reflexivity. }
  assert (Hp : ~ rawPCM (textPart "hello")).
  { intros (blob & Hblob & _). discriminate Hblob. }
  pose proof (modelTurn_audio_text_audio Examples.decode Examples.live
    (Scenarios.content Scenarios.twoRates) Scenarios.twoRates
    {| parts := Some [Scenarios.pcm "AAEC/w=="; textPart "hello";
                      inlinePart "audio/pcm;rate=16000" "AAAA"] |}
    (Scenarios.pcm "AAEC/w==") (textPart "hello")
    (inlinePart "audio/pcm;rate=16000" "AAAA")
    "AAEC/w==" "AAAA"
    ["000"; "001"; "002"; "255"]%byte ["000"; "000"; "000"]%byte
    (conj eq_refl (conj eq_refl (conj eq_refl eq_refl)))
    eq_refl eq_refl eq_refl H1 H2 Hp eq_refl eq_refl) as [_ Hlog].
  rewrite Hlog. reflexivity.
Defined.

Lemma interrupted_is_the_only_effect_witness :
  log (exec (onMessage Examples.decode (Scenarios.content Scenarios.cutShort))
            Examples.live)
  = log Examples.live
    ++ [ {| type := Ev_interrupted; timestamp := 1000; data := None |} ] /\
  audioStreamer (exec (onMessage Examples.decode (Scenarios.content Scenarios.cutShort))
                      Examples.live)
  = Some {| streamerCalls := [StreamerStop] |}.
Proof.
  pose proof (interrupted_is_the_only_effect Examples.decode Examples.live
    (Scenarios.content Scenarios.cutShort) Scenarios.cutShort true
    {| streamerCalls := [] |}) as H.
  destruct H as (_ & Hlog & Hstreamer & _);
    [solve [reflexivity | repeat split] ..
    | split; [rewrite Hlog; reflexivity | exact Hstreamer]].
Defined.



(* ================================================================== *)
(** ** Microphone frames *)
(* ================================================================== *)

Lemma onRecorderData_sent base64 w h :
  connected (_state w) = true ->
  muted (_state w) = false ->
  session w = Some h ->
  onRecorderData base64 w
  = (Normal tt,
     logged Ev_client_realtimeInput (Some (D_realtimeInput "audio"))
       (set_wire (wire w ++ [SendRealtimeInput h (micChunk base64)]) w)).
Proof.
  intros Hc Hm Hs. unfold onRecorderData, bind at 1, get.
  rewrite Hc, Hm. simpl.
  exact (sendRealtimeInput_eq [micChunk base64] w h Hs).
Qed.

Lemma onRecorderData_dropped base64 w :
  connected (_state w) = false \/ muted (_state w) = true \/ session w = None ->
  onRecorderData base64 w = (Normal tt, w).
Proof.
  intros Hdrop. unfold onRecorderData, bind at 1, get.
  destruct (connected (_state w)) eqn:Hc, (muted (_state w)) eqn:Hm; simpl;
    try reflexivity.
  destruct Hdrop as [Hd | [Hd | Hs]]; try discriminate.
  unfold sendRealtimeInput, bind, get. rewrite Hs. reflexivity.
Qed.

(** C10, as the code has it.  A frame from the capture device is
    forwarded exactly when the client is connected, not muted, and holds a
    session handle.  When it is forwarded, one realtime-input message with
    the frame goes to that session and one summarizing entry is logged;
    otherwise the frame is dropped and nothing changes. *)
Theorem recorder_frame_forwarded_iff :
  forall (w : World) (base64 : string),
    (forwarded base64 w <->
     connected (_state w) = true /\ muted (_state w) = false /\
     session w <> None) /\
    (forall h : Session,
        connected (_state w) = true -> muted (_state w) = false ->
        session w = Some h ->
        onRecorderData base64 w
        = (Normal tt,
           logged Ev_client_realtimeInput (Some (D_realtimeInput "audio"))
             (set_wire (wire w ++ [SendRealtimeInput h (micChunk base64)]) w))) /\
    (connected (_state w) = false \/ muted (_state w) = true \/ session w = None ->
     onRecorderData base64 w = (Normal tt, w)).
Proof.
  intros w base64. split; [| split].
  - unfold forwarded, exec. split.
    + intros Hsent.
      destruct (connected (_state w)) eqn:Hc, (muted (_state w)) eqn:Hm,
               (session w) as [h |] eqn:Hs;
        try (rewrite onRecorderData_dropped in Hsent by auto;
             contradiction Hsent; reflexivity).
      repeat split. discriminate.
    + intros (Hc & Hm & Hs). destruct (session w) as [h |] eqn:Hh; [| contradiction].
      rewrite (onRecorderData_sent base64 w h Hc Hm Hh). simpl.
      unfold logged. rewrite commit_wire. simpl.
      intros Heq. apply (f_equal (@length _)) in Heq.
      rewrite length_app in Heq. simpl in Heq. lia.
  - intros h. apply onRecorderData_sent.
  - apply onRecorderData_dropped.
Qed.

Lemma recorder_frame_forwarded_iff_witness :
  wire (exec (onRecorderData "AAEC/w==") Examples.live)
  = wire Examples.live ++ [SendRealtimeInput 0 (micChunk "AAEC/w==")].
Proof.
  destruct (recorder_frame_forwarded_iff Examples.live "AAEC/w==") as (_ & Hsent & _).
  unfold exec. rewrite (Hsent 0); reflexivity.
Defined.

(** Against C10 as stated.  The transport has called [onopen] and the
    promise of [live.connect] has not settled: the client is connected
    and not muted, and a frame that arrives now is not forwarded, for want
    of a session handle. *)
Lemma frame_dropped_while_connected_and_unmuted :
  ~ (forwarded "AAEC/w==" Examples.opened <->
     connected (_state Examples.opened) = true /\
     muted (_state Examples.opened) = false).
Proof.
  intros [_ Hback].
  assert (Hsent : forwarded "AAEC/w==" Examples.opened)
    by (apply Hback; split; reflexivity).
  apply Hsent. reflexivity.
Qed.

(* ================================================================== *)
(** ** Connecting *)
(* ================================================================== *)

Lemma connect_begin_eq w :
  connect_begin w
  = (Normal (if connected (_state w) then ReturnedFalse
             else AwaitingStreamer (streamerFound w)), w).
Proof.
  unfold connect_begin, initAudioStreamer_begin, streamerFound, bind, get, ret.
  destruct (connected (_state w)); [reflexivity |].
  destruct (audioStreamer w); reflexivity.
Qed.

Lemma connect_resume_eq m c w :
  connect_resume m c w = (Normal (Awaiting (length (wire w))), resumed m c w).
Proof.
  unfold connect_resume. unfold bind at 1, get.
  erewrite bind_normal by apply updateState_eq.
  unfold bind at 1, get.
  unfold liveConnect, transmit, bind, get, modify, ret. simpl.
  unfold resumed, sent. rewrite !commit_wire, !commit_dialing. reflexivity.
Qed.

Lemma connect_undisturbed_eq m c w :
  connected (_state w) = false ->
  connect_undisturbed m c w = (Normal (Awaiting (length (wire w))), dialled m c w).
Proof.
  intros Hc. unfold connect_undisturbed.
  erewrite bind_normal by apply connect_begin_eq. rewrite Hc.
  unfold dialled, streamerFound, streamerReady.
  destruct (audioStreamer w).
  - apply connect_resume_eq.
  - unfold initAudioStreamer_context, initAudioStreamer_worklet.
    erewrite bind_normal by reflexivity.
    erewrite bind_normal by reflexivity.
    rewrite connect_resume_eq. reflexivity.
Qed.

Section Connecting.

Variable decode : string -> JsError + list byte.

Lemma perform_Connect m c w :
  perform decode (Connect m c) w
  = (Normal tt, if connected (_state w) then w else called m c w).
Proof.
  unfold perform. erewrite bind_normal by apply connect_begin_eq.
  destruct (connected (_state w)); reflexivity.
Qed.

Lemma perform_StreamerAwaited i rejection w :
  perform decode (StreamerAwaited i rejection) w
  = match starting w !! i with
    | Some call => streamer_awaited i call rejection w
    | None => (Normal tt, w)
    end.
Proof.
  unfold perform, bind, get. destruct (starting w !! i); reflexivity.
Qed.

Lemma perform_ConnectResumes i w :
  perform decode (ConnectResumes i) w
  = match starting w !! i with
    | Some call => connect_resumes i call w
    | None => (Normal tt, w)
    end.
Proof.
  unfold perform, bind, get. destruct (starting w !! i); reflexivity.
Qed.

Lemma connect_resumes_eq i call w :
  connect_resumes i call w
  = (Normal tt,
     match call_streamer call with
     | StreamerInPlace =>
         resumed (call_model call) (call_config call)
           (set_starting (delete i (starting w)) w)
     | _ => w
     end).
Proof.
  unfold connect_resumes. destruct (call_streamer call); try reflexivity.
  unfold unsuspend. unfold bind at 1, get. unfold bind at 1, modify.
  erewrite bind_normal by apply connect_resume_eq. reflexivity.
Qed.

Lemma resumed_wire m c w :
  wire (resumed m c w)
  = wire w ++ [LiveConnect (length (wire w)) (JS.orElse m (model (_state w)))
                 (default (config (_state w)) c)].
Proof.
  unfold resumed, sent. simpl. rewrite !commit_state, !commit_wire. reflexivity.
Qed.


End Connecting.



(* ================================================================== *)
(** ** What a reference to a snapshot gives access to *)
(* ================================================================== *)

Module StoreFacts.
Import Store.

(** Reads of objects that exist are not changed by allocation. *)
Lemma fresh_unused (h : gmap loc Object) : h !! fresh (dom h) = None.
Proof. apply not_elem_of_dom, is_fresh. Qed.

Lemma lookup_insert_unused (h : gmap loc Object) l l' o :
  h !! l' = None -> is_Some (h !! l) -> <[l' := o]> h !! l = h !! l.
Proof.
  intros Hnone [x Hx]. apply lookup_insert_ne. intros ->. congruence.
Qed.

Lemma snapshotIn_Some (h : gmap loc Object) (l : loc) (st : LiveAPIState) :
  snapshotIn h l = Some st <->
  exists s es cfg,
    h !! l = Some (StateObj s) /\
    h !! o_events s = Some (EventArray es) /\
    h !! o_config s = Some (ConfigObj cfg) /\
    st = snapshotOf s es cfg.
Proof.
  unfold snapshotIn, readState, readEvents, readConfig, snapshotOf. split.
  - intros H. repeat (case_match; simplify_eq/=). eauto 10.
  - intros (s & es & cfg & Hs & He & Hc & ->).
    rewrite Hs. simpl. rewrite He. simpl. rewrite Hc. reflexivity.
Qed.

Lemma snapshotIn_insert_unused (h : gmap loc Object) (l l' : loc) o st :
  h !! l' = None ->
  snapshotIn h l = Some st ->
  snapshotIn (<[l' := o]> h) l = Some st.
Proof.
  intros Hnone Hst. apply snapshotIn_Some in Hst as (s & es & cfg & Hs & He & Hc & ->).
  apply snapshotIn_Some. exists s, es, cfg.
  rewrite !lookup_insert_unused by eauto. auto.
Qed.

(** Writing to an object other than the three a snapshot is read from
    does not change the snapshot. *)
Lemma snapshotIn_insert_elsewhere (h : gmap loc Object) (l l' : loc) o st :
  (forall s, h !! l = Some (StateObj s) ->
             l' <> l /\ l' <> o_events s /\ l' <> o_config s) ->
  snapshotIn h l = Some st ->
  snapshotIn (<[l' := o]> h) l = Some st.
Proof.
  intros Hne Hst. apply snapshotIn_Some in Hst as (s & es & cfg & Hs & He & Hc & ->).
  destruct (Hne s Hs) as (H1 & H2 & H3).
  apply snapshotIn_Some. exists s, es, cfg.
  rewrite !lookup_insert_ne by assumption. auto.
Qed.

Lemma updateState_heap (u : Updates) (c : Client) (s : StateObject) :
  heap c !! this_state c = Some (StateObj s) ->
  exists c',
    updateState u c = Some c' /\
    this_state c' = fresh (dom (heap c)) /\
    heap c' = <[fresh (dom (heap c)) := StateObj (spreadObject s u)]> (heap c).
Proof.
  intros Hs. unfold updateState, readState. rewrite Hs. simpl.
  eexists. split; [reflexivity |]. split; reflexivity.
Qed.

(** The store-level [addEvent] does to the internal state what the
    value-level [addEvent] does to the snapshot. *)
Lemma addEvent_internal now ty d (c : Client) (st : LiveAPIState) :
  internal c = Some st ->
  exists c',
    addEvent now ty d c = Some c' /\
    internal c'
    = Some (spread st
              (upd_events
                 (appendLog (events st)
                    {| type := ty; timestamp := now; data := d |}))).
Proof.
  intros Hst. apply snapshotIn_Some in Hst as (s & es & cfg & Hs & He & Hc & ->).
  unfold addEvent, readState, readEvents. rewrite Hs. simpl. rewrite He. simpl.
  set (e := {| type := ty; timestamp := now; data := d |}).
  set (l1 := fresh (dom (heap c))).
  assert (Hl1 : heap c !! l1 = None) by apply fresh_unused.
  set (h1 := <[l1 := EventArray (es ++ [e])]> (heap c)).
  unfold appendLog. simpl events.
  destruct (200 <? length (es ++ [e]))%nat.
  - set (l2 := fresh (dom h1)).
    assert (Hl2 : h1 !! l2 = None) by apply fresh_unused.
    set (h2 := <[l2 := EventArray (JS.slice (-150) (es ++ [e]))]> h1).
    assert (Hs2 : h2 !! this_state c = Some (StateObj s)).
    { unfold h2, h1. rewrite !lookup_insert_unused; eauto.
      rewrite lookup_insert_unused; eauto. }
    destruct (updateState_heap (eventsOnly l2)
                {| heap := h2; this_state := this_state c;
                   listening := listening c; inbox := inbox c |} s Hs2)
      as (c' & Hupd & Hthis & Hheap).
    exists c'. split; [exact Hupd |].
    unfold internal, snapshotAt. rewrite Hthis, Hheap. simpl.
    assert (Hl3 : h2 !! fresh (dom h2) = None) by apply fresh_unused.
    apply snapshotIn_Some.
    exists (spreadObject s (eventsOnly l2)), (JS.slice (-150) (es ++ [e])), cfg.
    simpl. rewrite lookup_insert_eq. split; [reflexivity |].
    split; [| split; [| reflexivity]].
    + rewrite lookup_insert_unused by (try exact Hl3; unfold h2;
        rewrite lookup_insert_eq; eauto).
      unfold h2. apply lookup_insert_eq.
    + rewrite lookup_insert_unused; [| exact Hl3 |].
      * unfold h2, h1. rewrite !lookup_insert_unused; eauto.
        rewrite lookup_insert_unused; eauto.
      * unfold h2, h1. rewrite !lookup_insert_unused; eauto.
        rewrite lookup_insert_unused; eauto.
  - assert (Hs1 : h1 !! this_state c = Some (StateObj s)).
    { unfold h1. rewrite lookup_insert_unused; eauto. }
    destruct (updateState_heap (eventsOnly l1)
                {| heap := h1; this_state := this_state c;
                   listening := listening c; inbox := inbox c |} s Hs1)
      as (c' & Hupd & Hthis & Hheap).
    exists c'. split; [exact Hupd |].
    unfold internal, snapshotAt. rewrite Hthis, Hheap. simpl.
    assert (Hl3 : h1 !! fresh (dom h1) = None) by apply fresh_unused.
    apply snapshotIn_Some.
    exists (spreadObject s (eventsOnly l1)), (es ++ [e]), cfg.
    simpl. rewrite lookup_insert_eq. split; [reflexivity |].
    split; [| split; [| reflexivity]].
    + rewrite lookup_insert_unused by (try exact Hl3; unfold h1;
        rewrite lookup_insert_eq; eauto).
      unfold h1. apply lookup_insert_eq.
    + rewrite lookup_insert_unused; [| exact Hl3 |].
      * unfold h1. rewrite lookup_insert_unused; eauto.
      * unfold h1. rewrite lookup_insert_unused; eauto.
Qed.

(** C9, as the code has it.  [getState()] returns a new object with the
    fields of the internal state: it reads as the same snapshot, and
    whatever is assigned to its fields from outside, the client's
    internal state, log included, stays as it was. *)
Theorem getState_copy_is_detached :
  forall (c : Client) (st : LiveAPIState) (s : loc) (c1 : Client)
         (f : StateObject -> StateObject),
    internal c = Some st ->
    getState c = Some (s, c1) ->
    snapshotAt s c1 = Some st /\
    s <> this_state c1 /\
    internal c1 = Some st /\
    internal (assignFields s f c1) = Some st.
Proof.
  intros c st s c1 f Hst Hget.
  pose proof Hst as Hst0.
  apply snapshotIn_Some in Hst as (s0 & es & cfg & Hs & He & Hc & ->).
  unfold getState, readState in Hget. rewrite Hs in Hget. simpl in Hget.
  injection Hget as <- <-.
  set (l := fresh (dom (heap c))).
  assert (Hl : heap c !! l = None) by apply fresh_unused.
  assert (Hinternal : snapshotIn (<[l := StateObj s0]> (heap c)) (this_state c)
                      = Some (snapshotOf s0 es cfg)).
  { apply snapshotIn_insert_unused; assumption. }
  split; [| split; [| split]].
  - unfold snapshotAt. simpl. apply snapshotIn_Some. exists s0, es, cfg.
    rewrite lookup_insert_eq. rewrite !lookup_insert_unused by eauto. auto.
  - simpl. intros Heq. fold l in Heq. rewrite Heq in Hl. congruence.
  - exact Hinternal.
  - unfold internal, snapshotAt, assignFields. simpl. fold l.
    rewrite lookup_insert_eq. simpl. rewrite insert_insert_eq.
    apply snapshotIn_insert_unused; assumption.
Qed.

Lemma getState_copy_is_detached_witness :
  internal (assignFields 5 (fun s => spreadObject s (eventsOnly 1)) snapshotTaken)
  = internal afterOpen.
Proof.
  assert (Hst : internal afterOpen
                = Some (spread initialState
                          (upd_events [{| type := Ev_open; timestamp := 1000;
                                          data := None |}])))
    by reflexivity.
  assert (Hget : getState afterOpen = Some (5, snapshotTaken)) by reflexivity.
  destruct (getState_copy_is_detached afterOpen _ 5 snapshotTaken
              (fun s => spreadObject s (eventsOnly 1)) Hst Hget)
    as (_ & _ & _ & Hkept).
  rewrite Hkept, Hst. reflexivity.
Defined.

(** Against C9 as stated.  The log inside the copy is the internal array
    itself, and so is what the [events] accessor returns: emptying it from
    outside empties the client's log.  The object handed to the listener
    is the internal state object itself: assigning to it changes the
    client's state. *)
Lemma snapshot_log_is_shared :
  getState afterOpen = Some (5, snapshotTaken) /\
  o_events <$> readState (heap snapshotTaken) 5 = Some 3 /\
  getEvents afterOpen = Some 3 /\
  internal (mutateArray 3 (fun _ => []) snapshotTaken) <> internal snapshotTaken /\
  inbox afterOpen = [this_state afterOpen] /\
  internal (assignFields (this_state afterOpen)
              (fun s => spreadObject s (eventsOnly 1)) afterOpen)
  <> internal afterOpen.
Proof.
  split; [reflexivity |]. split; [reflexivity |]. split; [reflexivity |].
  split; [| split; [reflexivity |]].
  - intros H. vm_compute in H. discriminate H.
  - intros H. vm_compute in H. discriminate H.
Qed.

End StoreFacts.

(* ================================================================== *)
(** ** A suspended tool dispatch that loses its session *)
(* ================================================================== *)

(** X14.  [disconnect()] may run while [handleToolCalls] is waiting for
    a provider.  When the dispatch resumes with responses to send, the
    call on the [null] session throws inside the [try]: nothing reaches
    the transport, and the failure is reported on the console and logged
    as one [error] entry with the message ["Tool call failed"]. *)
Lemma respond_after_disconnect (responseParts : list Part) (w : World) :
  session w = None ->
  toFunctionResponses responseParts <> [] ->
  handleToolCalls_resumed responseParts w
  = (Normal tt,
     logged Ev_error
       (Some (D_error "Tool call failed" "TypeError: Cannot read properties of null"))
       (set_console (console w ++ ["Error handling tool calls:"]) w)).
Proof.
  intros Hs Hrs. unfold handleToolCalls_resumed, tryCatch, respond.
  remember (toFunctionResponses responseParts) as frs eqn:Hfr.
  destruct responseParts as [| p ps]; [subst; contradiction Hrs; reflexivity |].
  destruct frs as [| r rs]; [contradiction |].
  change (0 <? length (p :: ps))%nat with true.
  change (0 <? length (r :: rs))%nat with true.
  unfold when.
  erewrite bind_throw.
  2:{ unfold sessionCall, bind, get. rewrite Hs. reflexivity. }
  unfold toolCallFailed. erewrite bind_normal by reflexivity.
  apply addEvent_eq.
Qed.

(* ================================================================== *)
(** ** The content entry holds the parts that are not audio *)
(* ================================================================== *)

Lemma same_key_same_entry {A} (l : list (nat * A)) (x y : nat * A) :
  List.NoDup (List.map fst l) -> In x l -> In y l -> fst x = fst y -> x = y.
Proof.
  induction l as [| z l IH]; intros Hnd Hx Hy Hk; [destruct Hx |].
  simpl in Hnd. apply List.NoDup_cons_iff in Hnd as [Hz Hnd].
  destruct Hx as [-> | Hx], Hy as [-> | Hy].
  - reflexivity.
  - exfalso. apply Hz. rewrite Hk. apply List.in_map. exact Hy.
  - exfalso. apply Hz. rewrite <- Hk. apply List.in_map. exact Hx.
  - apply IH; assumption.
Qed.

Lemma difference_of_filter {A} (g : nat * A -> bool) (l : list (nat * A)) :
  List.NoDup (List.map fst l) ->
  JS.difference JS.sameObject l (List.filter g l)
  = List.filter (fun x => negb (g x)) l.
Proof.
  intros Hnd. unfold JS.difference. apply List.filter_ext_in. intros x Hx.
  f_equal. destruct (g x) eqn:Hg.
  - apply List.existsb_exists. exists x. split.
    + apply List.filter_In. split; assumption.
    + unfold JS.sameObject. apply Nat.eqb_refl.
  - destruct (existsb (JS.sameObject x) (List.filter g l)) eqn:He; [| reflexivity].
    apply List.existsb_exists in He as (y & Hy & Hsame).
    apply List.filter_In in Hy as [Hy Hgy].
    unfold JS.sameObject in Hsame. apply Nat.eqb_eq in Hsame.
    rewrite (same_key_same_entry l x y Hnd Hx Hy Hsame) in Hg. congruence.
Qed.

Lemma identified_keys {A} (l : list A) :
  List.map fst (JS.identified l) = seq 0 (length l).
Proof.
  unfold JS.identified.
  change (List.map fst (imap (fun i x => (i, x)) l))
    with (fst <$> imap (fun i (x : A) => (i, x)) l).
  rewrite fmap_imap.
  change (imap (fun n : nat => fst ∘ (fun x : A => (n, x))) l)
    with (imap (fun (j : nat) (_ : A) => id j) l).
  rewrite (imap_seq_0 l id). apply list_fmap_id.
Qed.

Lemma identified_values {A} (l : list A) :
  List.map snd (JS.identified l) = l.
Proof.
  unfold JS.identified.
  change (List.map snd (imap (fun i x => (i, x)) l))
    with (snd <$> imap (fun i (x : A) => (i, x)) l).
  rewrite fmap_imap.
  change (imap (fun n : nat => snd ∘ (fun x : A => (n, x))) l)
    with (imap (const (@id A)) l).
  rewrite (imap_const id). apply list_fmap_id.
Qed.

Lemma map_snd_filter {A} (f : A -> bool) (l : list (nat * A)) :
  List.map snd (List.filter (fun x => f (snd x)) l)
  = List.filter f (List.map snd l).
Proof.
  induction l as [| x l IH]; simpl; [reflexivity |].
  destruct (f (snd x)); simpl; rewrite IH; reflexivity.
Qed.

(** Whatever the parts of a model turn, [difference] by identity leaves
    the parts the audio filter rejects, in their order. *)
Lemma otherParts_not_audio (ps : list Part) :
  List.map snd
    (JS.difference JS.sameObject (JS.identified ps)
       (List.filter (fun p => isAudioPart (snd p)) (JS.identified ps)))
  = List.filter (fun p => negb (isAudioPart p)) ps.
Proof.
  rewrite difference_of_filter.
  - rewrite (map_snd_filter (fun p => negb (isAudioPart p))).
    rewrite identified_values. reflexivity.
  - rewrite identified_keys. apply List.seq_NoDup.
Qed.


(** [onModelTurn] through the audio filter alone: the parts it accepts
    are played, and the parts it rejects, if any, make one content
    entry. *)
Lemma onModelTurn_partition decode (mt : option Content) :
  let ps := default [] (mt ≫= parts) in
  let others := List.filter (fun p => negb (isAudioPart p)) ps in
  onModelTurn decode mt
  = (forEach (List.map inlineBase64 (List.filter isAudioPart ps)) (playAudio decode) ;;
     when (0 <? length others)%nat
       (addEvent Ev_content (Some (D_content others)))).
Proof.
  intros ps others. unfold onModelTurn. fold ps.
  rewrite <- (List.length_map snd), otherParts_not_audio. fold others.
  replace (List.map (fun p : nat * Part => inlineBase64 (snd p))
             (List.filter (fun p : nat * Part => isAudioPart (snd p)) (JS.identified ps)))
    with (List.map inlineBase64 (List.filter isAudioPart ps)); [reflexivity |].
  rewrite <- (identified_values ps) at 1.
  rewrite <- (map_snd_filter isAudioPart), List.map_map. reflexivity.
Qed.

(* ================================================================== *)
(** ** Properties that hold in every history *)
(* ================================================================== *)

Section Invariant.

(** A property of worlds that survives every write the client makes:
    to a field, to the wire, to the snapshot. *)
Variable I : World -> Prop.
Hypothesis I_session : forall v w, I w -> I (set_session v w).
Hypothesis I_audioRecorder : forall r w, I w -> I (set_audioRecorder (Some r) w).
Hypothesis I_audioStreamer : forall a w, I w -> I (set_audioStreamer (Some a) w).
Hypothesis I_tools : forall v w, I w -> I (set_tools v w).
Hypothesis I_clock : forall v w, I w -> I (set_clock v w).
Hypothesis I_dialing : forall v w, I w -> I (set_dialing v w).
Hypothesis I_starting : forall v w, I w -> I (set_starting v w).
Hypothesis I_console : forall v w, I w -> I (set_console v w).
Hypothesis I_send :
  forall a w, isLiveConnect a = false -> I w -> I (set_wire (wire w ++ [a]) w).
Hypothesis I_dial :
  forall h m c w, I w -> I (set_wire (wire w ++ [LiveConnect h m c]) w).
Hypothesis I_commit : forall u w, p_events u = None -> I w -> I (commit u w).
Hypothesis I_logged : forall ty d w, I w -> I (logged ty d w).

Lemma maintains_ret {A} (a : A) : maintains I (ret a).
Proof. intros w H. exact H. Qed.

Lemma maintains_throw {A} e : maintains I (@throw A e).
Proof. intros w H. exact H. Qed.

Lemma maintains_get : maintains I get.
Proof. intros w H. exact H. Qed.

Lemma maintains_bind {A B} (m : Js A) (k : A -> Js B) :
  maintains I m -> (forall a, maintains I (k a)) -> maintains I (bind m k).
Proof.
  intros Hm Hk w H. unfold bind. specialize (Hm w H).
  destruct (m w) as [[a | e] w']; simpl in *; [apply Hk |]; exact Hm.
Qed.

Lemma maintains_tryCatch {A} (m : Js A) (handler : JsError -> Js A) :
  maintains I m -> (forall e, maintains I (handler e)) ->
  maintains I (tryCatch m handler).
Proof.
  intros Hm Hh w H. unfold tryCatch. specialize (Hm w H).
  destruct (m w) as [[a | e] w']; simpl in *; [| apply Hh]; exact Hm.
Qed.

Lemma maintains_when b (m : Js unit) : maintains I m -> maintains I (when b m).
Proof. intros Hm. destruct b; [exact Hm | apply maintains_ret]. Qed.

Lemma maintains_forEach {A} (l : list A) (body : A -> Js unit) :
  (forall x, maintains I (body x)) -> maintains I (forEach l body).
Proof.
  intros Hbody. induction l as [| x l IH]; simpl.
  - apply maintains_ret.
  - apply maintains_bind; [apply Hbody | intros _; exact IH].
Qed.

Lemma maintains_modify (f : World -> World) :
  (forall w, I w -> I (f w)) -> maintains I (modify f).
Proof. intros Hf w H. apply Hf. exact H. Qed.

Lemma maintains_updateState (u : PartialState) :
  p_events u = None -> maintains I (updateState u).
Proof. intros Hu w H. rewrite updateState_eq. apply I_commit; assumption. Qed.

Lemma maintains_addEvent ty d : maintains I (addEvent ty d).
Proof. intros w H. rewrite addEvent_eq. apply I_logged. exact H. Qed.

Lemma maintains_transmit a : isLiveConnect a = false -> maintains I (transmit a).
Proof. intros Ha w H. apply I_send; assumption. Qed.

Lemma maintains_sessionCall action :
  (forall h, isLiveConnect (action h) = false) -> maintains I (sessionCall action).
Proof.
  intros Ha w H. unfold sessionCall, bind, get.
  destruct (session w); [apply maintains_transmit; auto | exact H].
Qed.

Lemma maintains_sessionClose : maintains I sessionClose.
Proof.
  intros w H. unfold sessionClose, bind, get.
  destruct (session w); [apply maintains_transmit; auto | exact H].
Qed.

(** Lemmas about whole methods are collected as hints and tried first;
    the rest is taken apart along the structure of the code. *)
Create HintDb maintains discriminated.

#[local] Hint Resolve maintains_sessionClose maintains_addEvent : maintains.
#[local] Hint Extern 1 (maintains _ (sessionCall _)) =>
  apply maintains_sessionCall; intros ?; reflexivity : maintains.
#[local] Hint Extern 1 (maintains _ (updateState _)) =>
  apply maintains_updateState; reflexivity : maintains.

Ltac maintain :=
  repeat first
    [ assumption
    | solve [auto 1 with maintains nocore]
    | apply maintains_ret
    | apply maintains_throw
    | apply maintains_get
    | apply maintains_modify; intros ? ?;
      first [ apply I_session | apply I_audioRecorder | apply I_audioStreamer
            | apply I_tools | apply I_clock | apply I_dialing | apply I_console ];
      assumption
    | apply maintains_when
    | apply maintains_forEach; intros ?
    | apply maintains_bind; [| intros ?]
    | apply maintains_tryCatch; [| intros ?]
    | match goal with
      | |- maintains _ (match ?x with _ => _ end) => destruct x
      end ].

Lemma maintains_recorderCall c : maintains I (recorderCall c).
Proof. unfold recorderCall. maintain. Qed.

Lemma maintains_streamerCall c : maintains I (streamerCall c).
Proof. unfold streamerCall. maintain. Qed.

Lemma maintains_consoleError msg : maintains I (consoleError msg).
Proof. unfold consoleError. maintain. Qed.

#[local] Hint Resolve maintains_recorderCall maintains_streamerCall
  maintains_consoleError : maintains.

Lemma maintains_setConnected value : maintains I (setConnected value).
Proof. unfold setConnected. maintain. Qed.

Lemma maintains_connect_settle h rejection : maintains I (connect_settle h rejection).
Proof. unfold connect_settle. maintain. Qed.

#[local] Hint Resolve maintains_setConnected maintains_connect_settle : maintains.

Lemma maintains_disconnect : maintains I disconnect.
Proof. unfold disconnect. maintain. Qed.

Lemma maintains_sendChunks chunks : forall a v, maintains I (sendChunks chunks a v).
Proof.
  induction chunks as [| ch rest IH]; intros a v; simpl; maintain.
Qed.

#[local] Hint Resolve maintains_disconnect maintains_sendChunks : maintains.

Lemma maintains_sendRealtimeInput chunks : maintains I (sendRealtimeInput chunks).
Proof. unfold sendRealtimeInput. maintain. Qed.

Lemma maintains_callTools ts fcs : forall acc, maintains I (callTools ts fcs acc).
Proof.
  induction ts as [| t ts IH]; intros acc; simpl; unfold await; maintain.
Qed.

#[local] Hint Resolve maintains_sendRealtimeInput maintains_callTools : maintains.

Lemma maintains_handleToolCalls fcs : maintains I (handleToolCalls fcs).
Proof. unfold handleToolCalls, respond, toolCallFailed. maintain. Qed.

#[local] Hint Resolve maintains_handleToolCalls : maintains.

Variable decode : string -> JsError + list byte.

Lemma maintains_onMessage message : maintains I (onMessage decode message).
Proof. unfold onMessage, onModelTurn, playAudio, await. maintain. Qed.

(** The operations that are no part of a call of [connect] on its way to
    [live.connect] write neither the list of suspended calls nor a
    connection request. *)
Lemma maintains_perform_rest o :
  startsConnect o = false -> maintains I (perform decode o).
Proof.
  pose proof maintains_onMessage.
  destruct o; simpl; try discriminate; intros _;
    unfold destroy, setMuted, sendText, setConfig, setModel, onOpen, onError,
      onClose, onRecorderData, onRecorderVolume, onStreamerVolume;
    maintain.
Qed.

Lemma maintains_connect_resume m c : maintains I (connect_resume m c).
Proof.
  intros w H. unfold exec. rewrite connect_resume_eq. simpl.
  unfold resumed, sent. apply I_dialing, I_dial, I_commit; [reflexivity | exact H].
Qed.

Lemma maintains_perform o : maintains I (perform decode o).
Proof.
  destruct (startsConnect o) eqn:Ho; [| apply maintains_perform_rest; exact Ho].
  destruct o; try discriminate Ho; intros w H.
  - rewrite perform_Connect. simpl.
    destruct (connected (_state w)); [exact H | apply I_starting, H].
  - rewrite perform_StreamerAwaited.
    destruct (starting w !! i) as [call |]; [| exact H].
    unfold streamer_awaited, unsuspend, restage, initAudioStreamer_context,
      initAudioStreamer_worklet, bind, get, modify, ret, throw.
    destruct (call_streamer call), rejection; simpl;
      auto using I_starting, I_audioStreamer.
  - rewrite perform_ConnectResumes.
    destruct (starting w !! i) as [call |]; [| exact H].
    rewrite connect_resumes_eq. simpl.
    destruct (call_streamer call); try exact H.
    pose proof (maintains_connect_resume (call_model call) (call_config call)
                  (set_starting (delete i (starting w)) w)
                  (I_starting _ _ H)) as Hr.
    rewrite connect_resume_eq in Hr. exact Hr.
Qed.

(** Whatever happens to the client, in whatever order, the property
    holds. *)
Lemma invariant_in_every_history (ops : list Op) :
  forall w, I w -> I (run decode ops w).
Proof.
  induction ops as [| o ops IH]; intros w H; simpl.
  - exact H.
  - apply IH. apply maintains_perform. exact H.
Qed.

End Invariant.

(** A property of the log that every append keeps holds in every
    history. *)
Lemma log_invariant_in_every_history (good : list LiveAPIEvent -> Prop) decode ops w :
  (forall l e, good l -> good (appendLog l e)) ->
  good (log w) -> good (log (run decode ops w)).
Proof.
  intros Happend.
  apply (invariant_in_every_history (fun w => good (log w)));
    try (intros; assumption).
  - intros u v Hu H. unfold log. rewrite commit_state.
    unfold spread. rewrite Hu. exact H.
  - intros ty d v H. rewrite logged_log. apply Happend, H.
Qed.

(** No history of a client makes its log longer than 200 entries. *)
Corollary log_bounded_in_every_history decode (ops : list Op) listening ts now :
  length (log (run decode ops (newClient listening ts now))) <= 200.
Proof.
  apply (log_invariant_in_every_history (fun l => length l <= 200)).
  - intros l e. apply appendLog_length.
  - simpl. lia.
Qed.

(** The capture device made by the constructor is there in every
    history. *)
Lemma recorder_in_every_history decode (ops : list Op) listening ts now :
  audioRecorder (run decode ops (newClient listening ts now)) <> None.
Proof.
  apply (invariant_in_every_history (fun w => audioRecorder w <> None));
    try (intros; assumption); try discriminate.
  - intros u w _ H. rewrite commit_audioRecorder. exact H.
  - intros ty d w H. unfold logged. rewrite commit_audioRecorder. exact H.
Qed.

Lemma opened_send a w :
  isLiveConnect a = false -> opened (set_wire (wire w ++ [a]) w) = opened w.
Proof.
  intros Ha. unfold opened. simpl. rewrite omap_app. simpl.
  destruct a; try discriminate; apply app_nil_r.
Qed.

(** The operations outside [connect] leave the suspended calls and the
    connection requests alone, and never take the playback sink away. *)
Lemma rest_leaves_connecting_alone decode o w :
  startsConnect o = false ->
  let w' := exec (perform decode o) w in
  starting w' = starting w /\ opened w' = opened w /\
  (audioStreamer w <> None -> audioStreamer w' <> None).
Proof.
  intros Ho.
  apply (maintains_perform_rest
           (fun w' => starting w' = starting w /\ opened w' = opened w /\
                      (audioStreamer w <> None -> audioStreamer w' <> None)));
    try (intros ? ? H; exact H); try exact Ho.
  - intros a v (H1 & H2 & _). repeat split; try assumption. discriminate.
  - intros a v Ha (H1 & H2 & H3). rewrite opened_send by exact Ha. auto.
  - intros u v _ (H1 & H2 & H3). unfold opened.
    rewrite commit_starting, commit_wire, commit_audioStreamer. auto.
  - intros ty d v (H1 & H2 & H3). unfold logged, opened.
    rewrite commit_starting, commit_wire, commit_audioStreamer. auto.
  - auto.
Qed.

Lemma resumed_audioStreamer m c w : audioStreamer (resumed m c w) = audioStreamer w.
Proof. unfold resumed, sent. simpl. apply commit_audioStreamer. Qed.

Lemma sink_kept decode o w :
  sinkBeforeResume w /\ (opened w <> [] -> audioStreamer w <> None) ->
  let w' := exec (perform decode o) w in
  sinkBeforeResume w' /\ (opened w' <> [] -> audioStreamer w' <> None).
Proof.
  intros [Hsink Hdial] w'.
  destruct (startsConnect o) eqn:Ho.
  2:{ destruct (rest_leaves_connecting_alone decode o w Ho) as (Hst & Hop & Hau).
      fold w' in Hst, Hop, Hau. split.
      - intros call Hin Hpast. rewrite Hst in Hin. apply Hau. eapply Hsink; eassumption.
      - rewrite Hop. intros H. apply Hau, Hdial, H. }
  destruct o; try discriminate Ho; unfold w', exec.
  - (* connect() is called *)
    rewrite perform_Connect. simpl snd.
    destruct (connected (_state w)); [split; assumption |].
    split; [| exact Hdial].
    intros call Hin Hpast. simpl in Hin. apply in_app_or in Hin as [Hin | [<- | []]].
    + eapply Hsink; eassumption.
    + simpl in Hpast. unfold streamerFound in Hpast. simpl.
      destruct (audioStreamer w); [discriminate | exfalso; apply Hpast; reflexivity].
  - (* an await of initAudioStreamer settles *)
    rewrite perform_StreamerAwaited.
    destruct (starting w !! i) as [call |] eqn:Hi; [| split; assumption].
    assert (Hcall : In call (starting w)).
    { apply list_elem_of_In. eapply list_elem_of_lookup_2. exact Hi. }
    assert (Hdel : forall call', In call' (delete i (starting w)) -> In call' (starting w)).
    { intros call' H. apply list_elem_of_In. apply list_elem_of_In in H.
      eapply elem_of_sublist; [exact H | apply sublist_delete]. }
    unfold streamer_awaited, unsuspend, restage, initAudioStreamer_context,
      initAudioStreamer_worklet, bind, get, modify, ret, throw.
    assert (Hdrop : sinkBeforeResume (set_starting (delete i (starting w)) w)).
    { intros call' Hin Hpast. exact (Hsink call' (Hdel call' Hin) Hpast). }
    destruct (call_streamer call) eqn:Hat, rejection as [e |]; simpl;
      try (split; assumption).
    + split; [intros ? ? ?; discriminate | intros _; discriminate].
    + assert (Hthere : audioStreamer w <> None).
      { apply (Hsink call Hcall). rewrite Hat. discriminate. }
      split; [intros ? ? ?; exact Hthere | exact Hdial].
  - (* connect goes on after initAudioStreamer *)
    rewrite perform_ConnectResumes.
    destruct (starting w !! i) as [call |] eqn:Hi; [| split; assumption].
    rewrite connect_resumes_eq. simpl snd.
    destruct (call_streamer call) eqn:Hat; try (split; assumption).
    assert (Hthere : audioStreamer w <> None).
    { apply (Hsink call).
      - apply list_elem_of_In. eapply list_elem_of_lookup_2. exact Hi.
      - rewrite Hat. discriminate. }
    split; [intros ? ? ? | intros _]; rewrite resumed_audioStreamer; exact Hthere.
Qed.

Lemma sink_in_every_history decode (ops : list Op) :
  forall w,
    sinkBeforeResume w /\ (opened w <> [] -> audioStreamer w <> None) ->
    sinkBeforeResume (run decode ops w) /\
    (opened (run decode ops w) <> [] -> audioStreamer (run decode ops w) <> None).
Proof.
  induction ops as [| o ops IH]; intros w H; simpl.
  - exact H.
  - apply IH. apply sink_kept. exact H.
Qed.

(** Once a connection has been asked of the transport, the playback sink
    exists: a server message never finds it missing. *)
Lemma streamer_once_dialled decode (ops : list Op) listening ts now :
  let w := run decode ops (newClient listening ts now) in
  opened w <> [] -> audioStreamer w <> None.
Proof.
  apply sink_in_every_history. split.
  - intros call [].
  - simpl. intros H. contradiction H. reflexivity.
Qed.


(* ================================================================== *)
(** * Further properties of the client *)
(* ================================================================== *)

(* ================================================================== *)
(** ** Calls on the audio devices *)
(* ================================================================== *)

Lemma recorderCall_told c w : recorderCall c w = (Normal tt, recorderTold c w).
Proof.
  unfold recorderCall, recorderTold, bind, get, modify.
  destruct (audioRecorder w); reflexivity.
Qed.

Lemma streamerCall_told c w : streamerCall c w = (Normal tt, streamerTold c w).
Proof.
  unfold streamerCall, streamerTold, bind, get, modify.
  destruct (audioStreamer w); reflexivity.
Qed.

Lemma sessionCall_sent action w h :
  session w = Some h -> sessionCall action w = (Normal tt, sent (action h) w).
Proof. apply sessionCall_eq. Qed.

Lemma recorderTold_state c w : _state (recorderTold c w) = _state w.
Proof. unfold recorderTold. destruct (audioRecorder w); reflexivity. Qed.

Lemma recorderTold_session c w : session (recorderTold c w) = session w.
Proof. unfold recorderTold. destruct (audioRecorder w); reflexivity. Qed.

Lemma recorderTold_wire c w : wire (recorderTold c w) = wire w.
Proof. unfold recorderTold. destruct (audioRecorder w); reflexivity. Qed.

Lemma recorderTold_clock c w : clock (recorderTold c w) = clock w.
Proof. unfold recorderTold. destruct (audioRecorder w); reflexivity. Qed.

Lemma recorderTold_tools c w : tools (recorderTold c w) = tools w.
Proof. unfold recorderTold. destruct (audioRecorder w); reflexivity. Qed.

Lemma recorderTold_audioStreamer c w :
  audioStreamer (recorderTold c w) = audioStreamer w.
Proof. unfold recorderTold. destruct (audioRecorder w); reflexivity. Qed.

Lemma recorderTold_calls c w r :
  audioRecorder w = Some r ->
  audioRecorder (recorderTold c w) = Some {| recorderCalls := recorderCalls r ++ [c] |}.
Proof. intros H. unfold recorderTold. rewrite H. reflexivity. Qed.

Lemma streamerTold_state c w : _state (streamerTold c w) = _state w.
Proof. unfold streamerTold. destruct (audioStreamer w); reflexivity. Qed.

Lemma streamerTold_session c w : session (streamerTold c w) = session w.
Proof. unfold streamerTold. destruct (audioStreamer w); reflexivity. Qed.

Lemma streamerTold_wire c w : wire (streamerTold c w) = wire w.
Proof. unfold streamerTold. destruct (audioStreamer w); reflexivity. Qed.

Lemma streamerTold_clock c w : clock (streamerTold c w) = clock w.
Proof. unfold streamerTold. destruct (audioStreamer w); reflexivity. Qed.

Lemma streamerTold_tools c w : tools (streamerTold c w) = tools w.
Proof. unfold streamerTold. destruct (audioStreamer w); reflexivity. Qed.

Lemma streamerTold_audioRecorder c w :
  audioRecorder (streamerTold c w) = audioRecorder w.
Proof. unfold streamerTold. destruct (audioStreamer w); reflexivity. Qed.

Lemma logged_session ty d w : session (logged ty d w) = session w.
Proof. unfold logged. apply commit_session. Qed.

Lemma logged_wire ty d w : wire (logged ty d w) = wire w.
Proof. unfold logged. apply commit_wire. Qed.

Lemma logged_clock ty d w : clock (logged ty d w) = clock w.
Proof. unfold logged. apply commit_clock. Qed.

Lemma logged_tools ty d w : tools (logged ty d w) = tools w.
Proof. unfold logged. apply commit_tools. Qed.

Lemma logged_audioRecorder ty d w : audioRecorder (logged ty d w) = audioRecorder w.
Proof. unfold logged. apply commit_audioRecorder. Qed.

Lemma logged_audioStreamer ty d w : audioStreamer (logged ty d w) = audioStreamer w.
Proof. unfold logged. apply commit_audioStreamer. Qed.

Lemma logged_flags ty d w :
  connected (_state (logged ty d w)) = connected (_state w) /\
  muted (_state (logged ty d w)) = muted (_state w) /\
  model (_state (logged ty d w)) = model (_state w) /\
  config (_state (logged ty d w)) = config (_state w).
Proof. rewrite logged_state. repeat split. Qed.

Create Rewrite HintDb told.
#[export] Hint Rewrite recorderTold_state recorderTold_session recorderTold_wire
  recorderTold_clock recorderTold_tools recorderTold_audioStreamer
  streamerTold_state streamerTold_session streamerTold_wire streamerTold_clock
  streamerTold_tools streamerTold_audioRecorder
  logged_session logged_wire logged_clock logged_tools logged_audioRecorder
  logged_audioStreamer logged_log
  commit_state commit_session commit_audioStreamer commit_audioRecorder
  commit_tools commit_clock commit_wire : told.

Lemma setConnected_eq value w :
  setConnected value w
  = (Normal tt,
     recorderTold (if value && negb (muted (_state w)) then RecStart else RecStop)
       (commit (upd_connected value) w)).
Proof.
  unfold setConnected. erewrite bind_normal by apply updateState_eq.
  unfold bind at 1, get. rewrite commit_state.
  change (muted (spread (_state w) (upd_connected value))) with (muted (_state w)).
  destruct (value && negb (muted (_state w))); apply recorderCall_told.
Qed.

(* ================================================================== *)
(** ** Lifecycle *)
(* ================================================================== *)

Lemma sessionClose_eq w h :
  session w = Some h -> sessionClose w = (Normal tt, sent (Close h) w).
Proof. intros H. unfold sessionClose, bind, get, transmit, modify. rewrite H. reflexivity. Qed.

Lemma disconnect_eq w h :
  session w = Some h ->
  disconnect w
  = (Normal true,
     logged Ev_close (Some (D_closeUser "User disconnected"))
       (streamerTold StreamerStop
          (recorderTold RecStop
             (recorderTold RecStop
                (commit (upd_connected false)
                   (set_session None (sent (Close h) w))))))).
Proof.
  intros Hs. unfold disconnect. unfold bind at 1, get. rewrite Hs.
  erewrite bind_normal by (apply sessionClose_eq; exact Hs).
  erewrite bind_normal by reflexivity.
  erewrite bind_normal by apply setConnected_eq. simpl andb. cbv iota.
  erewrite bind_normal by apply recorderCall_told.
  erewrite bind_normal by apply streamerCall_told.
  erewrite bind_normal by apply addEvent_eq.
  reflexivity.
Qed.

(** X1.  [disconnect()] on a client that holds a session handle closes
    that handle, drops it, clears the connected flag, tells the recorder
    to stop (twice: once in [setConnected], once directly) and the
    streamer to stop, appends one [close] entry with the reason
    ["User disconnected"], and returns [true].  A second [disconnect()]
    returns [false] and changes nothing. *)
Theorem disconnect_closes_the_session :
  forall (w : World) (h : Session),
    session w = Some h ->
    let w' := exec disconnect w in
    completion disconnect w = Normal true /\
    session w' = None /\
    connected (_state w') = false /\
    wire w' = wire w ++ [Close h] /\
    log w' = appendLog (log w)
               {| type := Ev_close; timestamp := clock w;
                  data := Some (D_closeUser "User disconnected") |} /\
    (forall r, audioRecorder w = Some r ->
               audioRecorder w'
               = Some {| recorderCalls := recorderCalls r ++ [RecStop; RecStop] |}) /\
    (forall a, audioStreamer w = Some a ->
               audioStreamer w'
               = Some {| streamerCalls := streamerCalls a ++ [StreamerStop] |}) /\
    disconnect w' = (Normal false, w').
Proof.
  intros w h Hs w'.
  pose proof (disconnect_eq w h Hs) as Heq.
  unfold w', completion, exec. rewrite Heq. simpl fst. simpl snd.
  assert (Hnone : session
    (logged Ev_close (Some (D_closeUser "User disconnected"))
       (streamerTold StreamerStop
          (recorderTold RecStop
             (recorderTold RecStop
                (commit (upd_connected false)
                   (set_session None (sent (Close h) w))))))) = None).
  { autorewrite with told. reflexivity. }
  split; [reflexivity |]. split; [exact Hnone |].
  split; [| split; [| split; [| split; [| split]]]].
  - rewrite logged_state. simpl. autorewrite with told. reflexivity.
  - autorewrite with told. reflexivity.
  - rewrite logged_log. unfold log. autorewrite with told. reflexivity.
  - intros r Hr. rewrite logged_audioRecorder, streamerTold_audioRecorder.
    erewrite recorderTold_calls.
    2:{ apply recorderTold_calls. rewrite commit_audioRecorder. exact Hr. }
    simpl. rewrite <- app_assoc. reflexivity.
  - intros a Ha. rewrite logged_audioStreamer. unfold streamerTold.
    rewrite !recorderTold_audioStreamer, commit_audioStreamer. simpl. rewrite Ha.
    reflexivity.
  - unfold disconnect, bind, get. rewrite Hnone. reflexivity.
Qed.

Lemma disconnect_closes_the_session_witness :
  wire (exec disconnect Examples.live) = wire Examples.live ++ [Close 0] /\
  session (exec disconnect Examples.live) = None.
Proof.
  destruct (disconnect_closes_the_session Examples.live 0 eq_refl)
    as (_ & Hs & _ & Hw & _).
  split; [exact Hw | exact Hs].
Defined.

Lemma streamerReady_state w : _state (streamerReady w) = _state w.
Proof. unfold streamerReady. destruct (audioStreamer w); reflexivity. Qed.

Lemma streamerReady_wire w : wire (streamerReady w) = wire w.
Proof. unfold streamerReady. destruct (audioStreamer w); reflexivity. Qed.

Lemma streamerReady_dialing w : dialing (streamerReady w) = dialing w.
Proof. unfold streamerReady. destruct (audioStreamer w); reflexivity. Qed.

Lemma streamerReady_session w : session (streamerReady w) = session w.
Proof. unfold streamerReady. destruct (audioStreamer w); reflexivity. Qed.

Lemma streamerReady_there w : audioStreamer (streamerReady w) <> None.
Proof. unfold streamerReady. destruct (audioStreamer w) eqn:H; simpl; congruence. Qed.

Lemma resumed_state m c w :
  _state (resumed m c w)
  = spread (_state w)
      {| p_connected := None; p_muted := None; p_inVolume := None;
         p_outVolume := None; p_events := None;
         p_model := Some (JS.orElse m (model (_state w)));
         p_config := Some (default (config (_state w)) c) |}.
Proof. unfold resumed, sent. simpl. apply commit_state. Qed.

Lemma resumed_session m c w : session (resumed m c w) = session w.
Proof. unfold resumed, sent. simpl. apply commit_session. Qed.

Lemma resumed_dialing m c w :
  dialing (resumed m c w) = dialing w ++ [length (wire w)].
Proof. reflexivity. Qed.

Lemma resumed_audioRecorder m c w : audioRecorder (resumed m c w) = audioRecorder w.
Proof. unfold resumed, sent. simpl. apply commit_audioRecorder. Qed.

(** X2.  [connect(m, c)] on a client that is not connected changes
    nothing in its first stretch: it is suspended at
    [await this.initAudioStreamer()].  Model and config are read, stored
    and sent when the call resumes, from the state of that moment: the
    model is [m], or the model in the state when [m] is missing or empty,
    and likewise the config; the transport is asked for exactly one
    connection, with these values.  So a [setModel] made between the
    call and its resumption decides the model that is asked for.  The
    resumption does not look at the connected flag, and leaves the log,
    the session handle, the flags and the audio devices alone.  When
    nothing runs in between, the playback sink is created if there is
    none and the values are those of the call. *)
Theorem connect_dials_with_the_state_at_resumption :
  forall (w : World) (m : option string) (c : option LiveConnectConfig),
    let w' := exec (connect_resume m c) w in
    let h := length (wire w) in
    let chosen := JS.orElse m (model (_state w)) in
    (connected (_state w) = false ->
     connect_begin w = (Normal (AwaitingStreamer (streamerFound w)), w)) /\
    completion (connect_resume m c) w = Normal (Awaiting h) /\
    wire w' = wire w ++ [LiveConnect h chosen (default (config (_state w)) c)] /\
    dialing w' = dialing w ++ [h] /\
    model (_state w') = chosen /\
    config (_state w') = default (config (_state w)) c /\
    (m = None \/ m = Some EmptyString -> chosen = model (_state w)) /\
    log w' = log w /\
    session w' = session w /\
    connected (_state w') = connected (_state w) /\
    muted (_state w') = muted (_state w) /\
    audioStreamer w' = audioStreamer w /\
    audioRecorder w' = audioRecorder w /\
    (forall m2 : string,
        wire (exec (connect_resume None c) (exec (setModel m2) w))
        = wire w ++ [LiveConnect h m2 (default (config (_state w)) c)]) /\
    (connected (_state w) = false ->
     let u := exec (connect_undisturbed m c) w in
     completion (connect_undisturbed m c) w = Normal (Awaiting h) /\
     wire u = wire w ++ [LiveConnect h chosen (default (config (_state w)) c)] /\
     audioStreamer u <> None /\
     log u = log w /\
     session u = session w /\
     connected (_state u) = false).
Proof.
  intros w m c w' h chosen.
  split; [intros Hc; rewrite connect_begin_eq, Hc; reflexivity |].
  unfold w', completion, exec. rewrite connect_resume_eq. simpl fst. simpl snd.
  unfold log.
  rewrite resumed_wire, resumed_state, resumed_session, resumed_audioStreamer,
    resumed_audioRecorder.
  simpl.
  repeat (split; [reflexivity |]).
  split; [intros [-> | ->]; reflexivity |].
  repeat (split; [reflexivity |]).
  split.
  - intros m2. unfold setModel. rewrite updateState_eq, connect_resume_eq.
    simpl snd. rewrite resumed_wire, commit_wire, commit_state. reflexivity.
  - intros Hc. rewrite (connect_undisturbed_eq m c w Hc). simpl fst. simpl snd.
    unfold dialled.
    rewrite resumed_wire, resumed_state, resumed_session, resumed_audioStreamer,
      streamerReady_state, streamerReady_wire, streamerReady_session.
    simpl. repeat split; try assumption. apply streamerReady_there.
Qed.

(** [connect()], then [setModel], then the awaits of [connect]: the
    transport is asked for the model that was set last. *)
Lemma connect_dials_with_the_state_at_resumption_witness :
  wire (run Examples.decode
          [Connect None None; SetModel "models/m2";
           StreamerAwaited 0 None; StreamerAwaited 0 None; ConnectResumes 0]
          Examples.idle)
  = [LiveConnect 0 "models/m2" (config initialState)].
Proof.
  destruct (connect_dials_with_the_state_at_resumption
              (run Examples.decode
                 [Connect None None; StreamerAwaited 0 None; StreamerAwaited 0 None]
                 Examples.idle) None None)
    as (_ & _ & _ & _ & _ & _ & _ & _ & _ & _ & _ & _ & _ & Hset & _).
  exact (Hset "models/m2").
Defined.

Lemma connect_settle_rejected h e w :
  connect_settle h (Some e) w
  = (Normal false,
     logged Ev_error (Some (D_error "Failed to connect" e))
       (set_console (console w ++ ["Error connecting to GenAI Live:"])
          (set_dialing
             (List.filter (fun h' => negb (Nat.eqb h' h)) (dialing w)) w))).
Proof.
  unfold connect_settle. unfold bind at 1, get.
  erewrite bind_normal by reflexivity.
  erewrite bind_normal by reflexivity.
  erewrite bind_normal by apply addEvent_eq.
  reflexivity.
Qed.

(** X3.  When the transport rejects the connection, whatever has
    happened since it was asked for, [connect()] returns [false]: the
    error is written to the console and logged as one [error] entry with
    the message ["Failed to connect"], and nothing else changes.  No
    session handle is stored, nothing is sent, and the connected flag is
    left as it is: a client whose transport had not opened stays not
    connected and its next [connect()] is not refused, while one whose
    transport had opened stays connected and refuses the next
    [connect()]. *)
Theorem rejected_connect_is_logged_and_changes_no_flag :
  forall (w : World) (h : Session) (e : JsError),
    let w' := exec (connect_settle h (Some e)) w in
    completion (connect_settle h (Some e)) w = Normal false /\
    session w' = session w /\
    connected (_state w') = connected (_state w) /\
    muted (_state w') = muted (_state w) /\
    model (_state w') = model (_state w) /\
    config (_state w') = config (_state w) /\
    wire w' = wire w /\
    log w' = appendLog (log w)
               {| type := Ev_error; timestamp := clock w;
                  data := Some (D_error "Failed to connect" e) |} /\
    console w' = console w ++ ["Error connecting to GenAI Live:"] /\
    ~ In h (dialing w') /\
    (connect_begin w' = (Normal ReturnedFalse, w')
     <-> connected (_state w) = true).
Proof.
  intros w h e w'.
  assert (Hw' : w' = logged Ev_error (Some (D_error "Failed to connect" e))
       (set_console (console w ++ ["Error connecting to GenAI Live:"])
          (set_dialing
             (List.filter (fun h' => negb (Nat.eqb h' h)) (dialing w)) w))).
  { unfold w', exec. rewrite connect_settle_rejected. reflexivity. }
  assert (Hc : connected (_state w') = connected (_state w)).
  { rewrite Hw', logged_state. reflexivity. }
  split; [unfold completion; rewrite connect_settle_rejected; reflexivity |].
  split; [rewrite Hw', logged_session; reflexivity |].
  split; [exact Hc |].
  split; [rewrite Hw', logged_state; reflexivity |].
  split; [rewrite Hw', logged_state; reflexivity |].
  split; [rewrite Hw', logged_state; reflexivity |].
  split; [rewrite Hw', logged_wire; reflexivity |].
  split; [rewrite Hw', logged_log; reflexivity |].
  split; [rewrite Hw'; unfold logged; rewrite commit_console; reflexivity |].
  split.
  - rewrite Hw'. unfold logged. rewrite commit_dialing. simpl.
    intros Hin. apply List.filter_In in Hin as [_ Hne].
    rewrite Nat.eqb_refl in Hne. discriminate Hne.
  - rewrite connect_begin_eq, Hc.
    destruct (connected (_state w)); split; intros H;
      try reflexivity; try discriminate H.
Qed.

(** The rejection arrives after the transport has opened: the client is
    left connected, without a session, and refuses to connect again. *)
Lemma rejected_connect_is_logged_and_changes_no_flag_witness :
  let w := exec (connect_settle 0 (Some "refused")) Examples.opened in
  connected (_state w) = true /\
  session w = None /\
  connect_begin w = (Normal ReturnedFalse, w).
Proof.
  intros w.
  destruct (rejected_connect_is_logged_and_changes_no_flag Examples.opened 0
              "refused")
    as (_ & Hs & Hc & _ & _ & _ & _ & _ & _ & _ & Hnext).
  split; [exact Hc |]. split; [exact Hs |]. apply Hnext. reflexivity.
Defined.

Lemma dialled_wire m c w :
  wire (dialled m c w)
  = wire w ++ [LiveConnect (length (wire w)) (JS.orElse m (model (_state w)))
                 (default (config (_state w)) c)].
Proof.
  unfold dialled. rewrite resumed_wire, streamerReady_state, streamerReady_wire.
  reflexivity.
Qed.

(** X4.  [setModel(m)] stores the model and does nothing else: nothing
    goes on the wire and the session handle, the config and the log are
    untouched, so an open session is not affected.  The next [connect()]
    that is not given a model dials with [m], and so does one that was
    called before and resumes next. *)
Theorem setModel_takes_effect_at_the_next_connect :
  forall (w : World) (m : string),
    let w1 := exec (setModel m) w in
    model (_state w1) = m /\
    config (_state w1) = config (_state w) /\
    wire w1 = wire w /\
    session w1 = session w /\
    log w1 = log w /\
    connected (_state w1) = connected (_state w) /\
    (connected (_state w) = false ->
     wire (exec (connect_undisturbed None None) w1)
     = wire w ++ [LiveConnect (length (wire w)) m (config (_state w))]) /\
    wire (exec (connect_resume None None) w1)
    = wire w ++ [LiveConnect (length (wire w)) m (config (_state w))].
Proof.
  intros w m w1.
  assert (Hw1 : w1 = commit (upd_model m) w).
  { unfold w1, exec, setModel. rewrite updateState_eq. reflexivity. }
  rewrite Hw1. unfold log.
  rewrite !commit_state, !commit_wire, !commit_session. simpl.
  repeat (split; [reflexivity |]).
  split.
  - intros Hc. unfold exec.
    rewrite connect_undisturbed_eq by (rewrite commit_state; exact Hc).
    simpl snd. rewrite dialled_wire, commit_wire, commit_state. reflexivity.
  - unfold exec. rewrite connect_resume_eq. simpl snd.
    rewrite resumed_wire, commit_wire, commit_state. reflexivity.
Qed.

Lemma callableTools_In (ts : list ToolUnion) (t : CallableTool) :
  In t (callableTools ts) <-> In (Callable t) ts.
Proof.
  unfold callableTools. induction ts as [| [n | t'] ts IH]; simpl.
  - tauto.
  - rewrite IH. split; [auto | intros [H | H]; [discriminate | exact H]].
  - rewrite IH. split; intros [H | H]; auto; [left; congruence | left; congruence].
Qed.

(** X5.  [setConfig(c)] replaces the config wholesale.  When [c] has a
    [tools] key, the registered providers become the callable entries of
    [c.tools], plain declarations being dropped; when it has none, the
    providers are kept.  Nothing goes on the wire, and the next
    [connect()] that is not given a config dials with [c], as does one
    that was called before and resumes next. *)
Theorem setConfig_replaces_config_and_providers :
  forall (w : World) (c : LiveConnectConfig),
    let w1 := exec (setConfig c) w in
    config (_state w1) = c /\
    tools w1 = match config_tools c with
               | Some ts => callableTools ts
               | None => tools w
               end /\
    (forall ts t, config_tools c = Some ts ->
                  (In t (tools w1) <-> In (Callable t) ts)) /\
    model (_state w1) = model (_state w) /\
    wire w1 = wire w /\
    session w1 = session w /\
    log w1 = log w /\
    (connected (_state w) = false ->
     wire (exec (connect_undisturbed None None) w1)
     = wire w ++ [LiveConnect (length (wire w)) (model (_state w)) c]) /\
    wire (exec (connect_resume None None) w1)
    = wire w ++ [LiveConnect (length (wire w)) (model (_state w)) c].
Proof.
  intros w c w1.
  assert (Hw1 : w1 = commit (upd_config c)
                       (match config_tools c with
                        | Some ts => set_tools (callableTools ts) w
                        | None => w
                        end)).
  { unfold w1, exec, setConfig.
    destruct (config_tools c); (erewrite bind_normal by reflexivity);
      rewrite updateState_eq; reflexivity. }
  assert (Htools : tools w1 = match config_tools c with
                              | Some ts => callableTools ts
                              | None => tools w
                              end).
  { rewrite Hw1, commit_tools. destruct (config_tools c); reflexivity. }
  split; [rewrite Hw1, commit_state; reflexivity |].
  split; [exact Htools |].
  split.
  { intros ts t Hts. rewrite Htools, Hts. apply callableTools_In. }
  assert (Hframe : _state w1 = spread (_state w) (upd_config c) /\
                   wire w1 = wire w /\ session w1 = session w).
  { rewrite Hw1, commit_state, commit_wire, commit_session.
    destruct (config_tools c); repeat split. }
  destruct Hframe as (Hst & Hwire & Hs).
  unfold log. rewrite Hst, Hwire, Hs. simpl.
  repeat (split; [reflexivity |]).
  split.
  - intros Hc. unfold exec.
    rewrite connect_undisturbed_eq by (rewrite Hst; exact Hc).
    simpl snd. rewrite dialled_wire, Hwire, Hst. reflexivity.
  - unfold exec. rewrite connect_resume_eq. simpl snd.
    rewrite resumed_wire, Hwire, Hst. reflexivity.
Qed.

Lemma setConfig_replaces_config_and_providers_witness :
  tools (exec (setConfig {| mediaResolution := None;
                            contextWindowCompression := None;
                            config_tools := Some [Declared "googleSearch";
                                                  Callable WeatherTool.tool];
                            config_rest := [] |}) Examples.live)
  = [WeatherTool.tool].
Proof.
  destruct (setConfig_replaces_config_and_providers Examples.live
              {| mediaResolution := None;
                 contextWindowCompression := None;
                 config_tools := Some [Declared "googleSearch";
                                       Callable WeatherTool.tool];
                 config_rest := [] |}) as (_ & Htools & _).
  exact Htools.
Defined.

Lemma onOpen_eq w :
  onOpen w
  = (Normal tt,
     logged Ev_open None
       (recorderTold (if muted (_state w) then RecStop else RecStart)
          (commit (upd_connected true) w))).
Proof.
  unfold onOpen. erewrite bind_normal by apply setConnected_eq.
  rewrite addEvent_eq. simpl andb. destruct (muted (_state w)); reflexivity.
Qed.

(** X6.  When the transport opens, the client sets the connected flag,
    starts capture unless it is muted (when muted it tells the recorder
    to stop instead), and appends one [open] entry.  Nothing goes on the
    wire and the session handle is not touched. *)
Theorem onOpen_starts_capture_unless_muted :
  forall w : World,
    let w' := exec onOpen w in
    completion onOpen w = Normal tt /\
    connected (_state w') = true /\
    muted (_state w') = muted (_state w) /\
    log w' = appendLog (log w)
               {| type := Ev_open; timestamp := clock w; data := None |} /\
    (forall r, audioRecorder w = Some r ->
               audioRecorder w'
               = Some {| recorderCalls :=
                           recorderCalls r
                           ++ [if muted (_state w) then RecStop else RecStart] |}) /\
    wire w' = wire w /\
    session w' = session w.
Proof.
  intros w w'. unfold w', completion, exec. rewrite onOpen_eq. simpl fst. simpl snd.
  split; [reflexivity |].
  rewrite logged_log. unfold log.
  rewrite logged_state, logged_audioRecorder, logged_wire, logged_session.
  autorewrite with told. simpl.
  repeat split.
  intros r Hr. apply recorderTold_calls. rewrite commit_audioRecorder. exact Hr.
Qed.

Lemma onClose_eq reason code w :
  onClose reason code w
  = (Normal tt,
     logged Ev_close (Some (D_close reason code))
       (recorderTold RecStop (commit (upd_connected false) w))).
Proof.
  unfold onClose. erewrite bind_normal by apply setConnected_eq.
  rewrite addEvent_eq. reflexivity.
Qed.

(** X7.  When the transport closes on its own, the client clears the
    connected flag, tells the recorder to stop and appends one [close]
    entry with the reason and code; it puts nothing on the wire and keeps
    its session handle.  The handle is dropped only by [disconnect()],
    which afterwards still returns [true] and closes it. *)
Theorem onClose_keeps_the_session_handle :
  forall (w : World) (reason : string) (code : Z),
    let w' := exec (onClose reason code) w in
    completion (onClose reason code) w = Normal tt /\
    connected (_state w') = false /\
    log w' = appendLog (log w)
               {| type := Ev_close; timestamp := clock w;
                  data := Some (D_close reason code) |} /\
    (forall r, audioRecorder w = Some r ->
               audioRecorder w'
               = Some {| recorderCalls := recorderCalls r ++ [RecStop] |}) /\
    wire w' = wire w /\
    session w' = session w /\
    (forall h, session w = Some h ->
               completion disconnect w' = Normal true /\
               wire (exec disconnect w') = wire w ++ [Close h]).
Proof.
  intros w reason code w'.
  assert (Hw' : w' = logged Ev_close (Some (D_close reason code))
                       (recorderTold RecStop (commit (upd_connected false) w))).
  { unfold w', exec. rewrite onClose_eq. reflexivity. }
  assert (Hs : session w' = session w).
  { rewrite Hw'. autorewrite with told. reflexivity. }
  assert (Hwire : wire w' = wire w).
  { rewrite Hw'. autorewrite with told. reflexivity. }
  split; [unfold completion; rewrite onClose_eq; reflexivity |].
  split; [rewrite Hw', logged_state; simpl; autorewrite with told; reflexivity |].
  split.
  { rewrite Hw', logged_log. unfold log. autorewrite with told. reflexivity. }
  split.
  { intros r Hr. rewrite Hw', logged_audioRecorder.
    apply recorderTold_calls. rewrite commit_audioRecorder. exact Hr. }
  split; [exact Hwire |]. split; [exact Hs |].
  intros h Hh. rewrite Hh in Hs.
  unfold completion, exec. rewrite (disconnect_eq w' h Hs). simpl fst. simpl snd.
  split; [reflexivity |].
  autorewrite with told. simpl. rewrite Hwire. reflexivity.
Qed.

Lemma setMuted_idle m w :
  connected (_state w) = false ->
  setMuted m w = (Normal tt, commit (upd_muted m) w).
Proof.
  intros Hc. unfold setMuted. erewrite bind_normal by apply updateState_eq.
  unfold bind, get. rewrite commit_state. simpl. rewrite Hc. reflexivity.
Qed.

(** X8.  [setMuted(m)] on a client that is not connected only records
    the flag: the recorder gets no call.  The flag is honoured when the
    transport opens: after [setMuted(true)], opening sets the connected
    flag but does not start capture. *)
Theorem muting_before_the_transport_opens :
  forall (w : World) (m : bool) (r : AudioRecorder),
    connected (_state w) = false ->
    audioRecorder w = Some r ->
    let w1 := exec (setMuted m) w in
    let w2 := exec onOpen w1 in
    audioRecorder w1 = Some r /\
    muted (_state w1) = m /\
    wire w1 = wire w /\
    connected (_state w2) = true /\
    audioRecorder w2
    = Some {| recorderCalls := recorderCalls r ++ [if m then RecStop else RecStart] |}.
Proof.
  intros w m r Hc Hr w1 w2.
  assert (Hw1 : w1 = commit (upd_muted m) w).
  { unfold w1, exec. rewrite setMuted_idle by exact Hc. reflexivity. }
  assert (Hr1 : audioRecorder w1 = Some r).
  { rewrite Hw1, commit_audioRecorder. exact Hr. }
  assert (Hm1 : muted (_state w1) = m).
  { rewrite Hw1, commit_state. reflexivity. }
  split; [exact Hr1 |]. split; [exact Hm1 |].
  split; [rewrite Hw1; apply commit_wire |].
  unfold w2, exec. rewrite onOpen_eq. simpl snd. rewrite Hm1.
  rewrite logged_state, logged_audioRecorder. simpl.
  autorewrite with told. simpl. split; [reflexivity |].
  apply recorderTold_calls. rewrite commit_audioRecorder. exact Hr1.
Qed.

Lemma muting_before_the_transport_opens_witness :
  audioRecorder (exec onOpen (exec (setMuted true) Examples.connecting))
  = Some {| recorderCalls := [RecStop] |}.
Proof.
  destruct (muting_before_the_transport_opens Examples.connecting true
              {| recorderCalls := [] |} eq_refl eq_refl) as (_ & _ & _ & _ & H).
  exact H.
Defined.

Lemma sendText_eq t tc w h :
  session w = Some h ->
  sendText t tc w
  = (Normal tt,
     logged Ev_client_send (Some (D_clientSend [textPart t] tc))
       (sent (SendClientContent h [textPart t] tc) w)).
Proof.
  intros Hs. unfold sendText. unfold bind at 1, get. rewrite Hs.
  erewrite bind_normal by (apply sessionCall_sent; exact Hs).
  apply addEvent_eq.
Qed.

(** X9.  With an active session, [sendText(t, tc)] sends one
    client-content message whose turn is the single text part [t], with
    the flag [tc], and appends one [client-send] entry with the same turn
    and flag.  The state is otherwise unchanged. *)
Theorem sendText_sends_one_turn :
  forall (w : World) (h : Session) (t : string) (tc : bool),
    session w = Some h ->
    let w' := exec (sendText t tc) w in
    completion (sendText t tc) w = Normal tt /\
    wire w' = wire w ++ [SendClientContent h [textPart t] tc] /\
    log w' = appendLog (log w)
               {| type := Ev_client_send; timestamp := clock w;
                  data := Some (D_clientSend [textPart t] tc) |} /\
    session w' = Some h /\
    connected (_state w') = connected (_state w) /\
    muted (_state w') = muted (_state w) /\
    audioRecorder w' = audioRecorder w /\
    audioStreamer w' = audioStreamer w.
Proof.
  intros w h t tc Hs w'.
  unfold w', completion, exec. rewrite (sendText_eq t tc w h Hs).
  simpl fst. simpl snd.
  rewrite logged_log, logged_state, logged_wire, logged_session,
    logged_audioRecorder, logged_audioStreamer.
  simpl. repeat split. exact Hs.
Qed.

Lemma sendText_sends_one_turn_witness :
  wire (exec (sendText "hello" true) Examples.live)
  = wire Examples.live ++ [SendClientContent 0 [textPart "hello"] true].
Proof.
  destruct (sendText_sends_one_turn Examples.live 0 "hello" true eq_refl)
    as (_ & Hw & _).
  exact Hw.
Defined.

(* ================================================================== *)
(** ** Messages that are only logged *)
(* ================================================================== *)

(** X10.  The first matching case of [onMessage] wins.  A message with
    [setupComplete] is logged as one [setupcomplete] entry and nothing
    else happens, whatever other keys it carries; a message without it
    and without [toolCall] that carries [toolCallCancellation] is logged
    as one [toolcallcancellation] entry with the cancellation, and no
    provider is told.  In both cases nothing goes on the wire, no audio is
    played, and the decoder is not consulted. *)
Theorem acknowledgements_and_cancellations_are_only_logged :
  forall (decode : string -> JsError + list byte) (w : World)
         (message : LiveServerMessage),
    (forall s, setupComplete message = Some s ->
               onMessage decode message w
               = (Normal tt, logged Ev_setupcomplete None w)) /\
    (forall c, setupComplete message = None ->
               toolCall message = None ->
               toolCallCancellation message = Some c ->
               onMessage decode message w
               = (Normal tt,
                  logged Ev_toolcallcancellation
                    (Some (D_toolCallCancellation c)) w)) /\
    (forall ty d, wire (logged ty d w) = wire w /\
                  audioStreamer (logged ty d w) = audioStreamer w /\
                  session (logged ty d w) = session w /\
                  log (logged ty d w)
                  = appendLog (log w)
                      {| type := ty; timestamp := clock w; data := d |}).
Proof.
  intros decode w message. split; [| split].
  - intros s Hs. unfold onMessage. rewrite Hs. apply addEvent_eq.
  - intros c Hs Ht Hc. unfold onMessage. rewrite Hs, Ht, Hc. apply addEvent_eq.
  - intros ty d.
    rewrite logged_wire, logged_audioStreamer, logged_session, logged_log.
    repeat split.
Qed.

Lemma acknowledgements_and_cancellations_are_only_logged_witness :
  onMessage Examples.decode
    {| setupComplete := Some SetupComplete;
       toolCall := Some Scenarios.twoCities;
       toolCallCancellation := None;
       serverContent := Some Scenarios.spokenTurn |} Examples.live
  = (Normal tt, logged Ev_setupcomplete None Examples.live).
Proof.
  destruct (acknowledgements_and_cancellations_are_only_logged Examples.decode
              Examples.live
              {| setupComplete := Some SetupComplete;
                 toolCall := Some Scenarios.twoCities;
                 toolCallCancellation := None;
                 serverContent := Some Scenarios.spokenTurn |}) as (H & _).
  apply (H SetupComplete). reflexivity.
Defined.

(** X11.  A tool-call request that carries no [functionCalls], or that
    arrives while no provider is registered, is logged as one [toolcall]
    entry and not dispatched: nothing is sent back. *)
Theorem toolCall_without_providers_is_only_logged :
  forall (decode : string -> JsError + list byte) (w : World)
         (message : LiveServerMessage) (tc : LiveServerToolCall),
    setupComplete message = None ->
    toolCall message = Some tc ->
    functionCalls tc = None \/ tools w = [] ->
    let w' := exec (onMessage decode message) w in
    onMessage decode message w
    = (Normal tt, logged Ev_toolcall (Some (D_toolCall tc)) w) /\
    wire w' = wire w /\
    log w' = appendLog (log w)
               {| type := Ev_toolcall; timestamp := clock w;
                  data := Some (D_toolCall tc) |}.
Proof.
  intros decode w message tc Hs Ht Hnone w'.
  assert (Heq : onMessage decode message w
                = (Normal tt, logged Ev_toolcall (Some (D_toolCall tc)) w)).
  { unfold onMessage. rewrite Hs, Ht.
    erewrite bind_normal by apply addEvent_eq.
    unfold bind, get. rewrite logged_tools.
    destruct Hnone as [Hf | Hts].
    - rewrite Hf. reflexivity.
    - rewrite Hts. destruct (functionCalls tc); reflexivity. }
  split; [exact Heq |].
  unfold w', exec. rewrite Heq. simpl snd.
  rewrite logged_wire, logged_log. split; reflexivity.
Qed.

Lemma toolCall_without_providers_is_only_logged_witness :
  wire (exec (onMessage Examples.decode (Scenarios.request Scenarios.twoCities))
             (exec destroy Examples.live))
  = wire (exec destroy Examples.live).
Proof.
  destruct (toolCall_without_providers_is_only_logged Examples.decode
              (exec destroy Examples.live)
              (Scenarios.request Scenarios.twoCities) Scenarios.twoCities
              eq_refl eq_refl (or_intror eq_refl)) as (_ & Hw & _).
  exact Hw.
Defined.

(* ================================================================== *)
(** ** The tool dispatcher in general *)
(* ================================================================== *)

Lemma callTools_gather ts fcs :
  forall acc w,
    callTools ts fcs acc w
    = match gather ts fcs with
      | inr ps => (Normal (acc ++ ps), w)
      | inl e => (Throw e, w)
      end.
Proof.
  induction ts as [| t ts IH]; intros acc w; simpl.
  - rewrite app_nil_r. reflexivity.
  - destruct (callTool t fcs) as [e | ps]; simpl; [reflexivity |].
    erewrite bind_normal by reflexivity. rewrite IH.
    destruct (gather ts fcs); [reflexivity |].
    rewrite app_assoc. reflexivity.
Qed.

Lemma gather_resolved ts fcs results :
  Forall2 (fun t ps => callTool t fcs = inr ps) ts results ->
  gather ts fcs = inr (concat results).
Proof.
  induction 1 as [| t ps ts results Ht _ IH]; simpl.
  - reflexivity.
  - rewrite Ht, IH. reflexivity.
Qed.

Lemma gather_rejected before t after fcs e :
  Forall (fun t' => exists ps, callTool t' fcs = inr ps) before ->
  callTool t fcs = inl e ->
  gather (before ++ t :: after) fcs = inl e.
Proof.
  induction 1 as [| t' before [ps Hps] _ IH]; intros Ht; simpl.
  - rewrite Ht. reflexivity.
  - rewrite Hps, IH by exact Ht. reflexivity.
Qed.

Lemma handleToolCalls_eq fcs w h :
  session w = Some h ->
  tools w <> [] ->
  handleToolCalls fcs w
  = match gather (tools w) fcs with
    | inl e =>
        (Normal tt,
         logged Ev_error (Some (D_error "Tool call failed" e))
           (set_console (console w ++ ["Error handling tool calls:"]) w))
    | inr ps =>
        match toFunctionResponses ps with
        | [] => (Normal tt, w)
        | r :: rs =>
            (Normal tt,
             logged Ev_client_toolResponse (Some (D_toolResponse (r :: rs)))
               (sent (SendToolResponse h (r :: rs)) w))
        end
    end.
Proof.
  intros Hs Hts. unfold handleToolCalls. unfold bind at 1, get. rewrite Hs.
  assert (Hlen : (length (tools w) =? 0)%nat = false).
  { destruct (tools w); [contradiction | reflexivity]. }
  rewrite Hlen. change (false || false) with false. cbv beta iota.
  unfold tryCatch. unfold bind at 1. rewrite callTools_gather.
  destruct (gather (tools w) fcs) as [e | ps].
  - unfold toolCallFailed. erewrite bind_normal by reflexivity.
    rewrite addEvent_eq. reflexivity.
  - simpl app. unfold respond.
    destruct ps as [| p ps]; [reflexivity |].
    change (0 <? length (p :: ps))%nat with true. unfold when at 1.
    destruct (toFunctionResponses (p :: ps)) as [| r rs]; [reflexivity |].
    change (0 <? length (r :: rs))%nat with true. unfold when.
    erewrite bind_normal by (apply sessionCall_sent; exact Hs).
    rewrite addEvent_eq. reflexivity.
Qed.

(** X12.  When every registered provider resolves, the function
    responses among all their parts, in the order of the providers (not
    of the calls), go back in one tool-response message, logged as one
    [client-toolResponse] entry; parts that carry no function response
    are left out.  When no part carries a function response, nothing is
    sent and nothing is logged. *)
Theorem tool_responses_are_aggregated_in_provider_order :
  forall (w : World) (h : Session) (fcs : list FunctionCall)
         (results : list (list Part)),
    session w = Some h ->
    tools w <> [] ->
    Forall2 (fun t ps => callTool t fcs = inr ps) (tools w) results ->
    let w' := exec (handleToolCalls fcs) w in
    let responses := toFunctionResponses (concat results) in
    completion (handleToolCalls fcs) w = Normal tt /\
    (responses = [] -> w' = w) /\
    (responses <> [] ->
     wire w' = wire w ++ [SendToolResponse h responses] /\
     log w' = appendLog (log w)
                {| type := Ev_client_toolResponse; timestamp := clock w;
                   data := Some (D_toolResponse responses) |}).
Proof.
  intros w h fcs results Hs Hts Hres w' responses.
  pose proof (handleToolCalls_eq fcs w h Hs Hts) as Heq.
  rewrite (gather_resolved _ _ _ Hres) in Heq. fold responses in Heq.
  unfold w', completion, exec. rewrite Heq.
  destruct responses as [| r rs]; simpl fst; simpl snd.
  - split; [reflexivity |]. split; [reflexivity | intros H; contradiction H; reflexivity].
  - split; [reflexivity |]. split; [discriminate |]. intros _.
    rewrite logged_wire, logged_log. split; reflexivity.
Qed.

(** Calls for both providers of the repository, the chart first. *)
Lemma tool_responses_are_aggregated_in_provider_order_witness :
  let chart := {| fc_id := Some "call-1"; fc_name := Some AltairTool.name;
                  fc_args := Some [("json_graph", "{}")] |} in
  let weather := Scenarios.weatherCall "call-2" "Tokyo, Japan" in
  List.map fr_id
    (match last (wire (exec (handleToolCalls [chart; weather]) Examples.live)) with
     | Some (SendToolResponse _ rs) => rs
     | _ => []
     end)
  = [Some "call-2"; Some "call-1"].
Proof.
  intros chart weather.
  destruct (tool_responses_are_aggregated_in_provider_order Examples.live 0
              [chart; weather]
              [ [responsePart Scenarios.tokyo];
                [AltairTool.output chart false "Container not set"] ]
              eq_refl) as (_ & _ & Hsent).
  - discriminate.
  - repeat constructor.
  - destruct Hsent as [Hw _]; [discriminate |].
    rewrite Hw, last_snoc. reflexivity.
Defined.

(** X13.  When a provider rejects, the dispatch stops there: nothing is
    sent to the transport, not even the responses of the providers that
    had already resolved, and the providers after it contribute nothing.
    The failure is written to the console and logged as one [error] entry
    with the message ["Tool call failed"]; [handleToolCalls] itself
    completes normally. *)
Theorem provider_rejection_sends_nothing :
  forall (w : World) (h : Session) (fcs : list FunctionCall)
         (before after : list CallableTool) (t : CallableTool) (e : JsError),
    session w = Some h ->
    tools w = before ++ t :: after ->
    Forall (fun t' => exists ps, callTool t' fcs = inr ps) before ->
    callTool t fcs = inl e ->
    let w' := exec (handleToolCalls fcs) w in
    completion (handleToolCalls fcs) w = Normal tt /\
    wire w' = wire w /\
    log w' = appendLog (log w)
               {| type := Ev_error; timestamp := clock w;
                  data := Some (D_error "Tool call failed" e) |} /\
    console w' = console w ++ ["Error handling tool calls:"].
Proof.
  intros w h fcs before after t e Hs Htools Hbefore Ht w'.
  assert (Hne : tools w <> []).
  { rewrite Htools. destruct before; discriminate. }
  pose proof (handleToolCalls_eq fcs w h Hs Hne) as Heq.
  rewrite Htools, (gather_rejected before t after fcs e Hbefore Ht) in Heq.
  unfold w', completion, exec. rewrite Heq. simpl fst. simpl snd.
  rewrite logged_wire, logged_log. unfold logged. rewrite commit_console.
  repeat split.
Qed.

(** A weather call without arguments makes [WeatherTool] reject. *)
Lemma provider_rejection_sends_nothing_witness :
  wire (exec (handleToolCalls
                [Scenarios.weatherCall "call-1" "London, UK";
                 {| fc_id := Some "call-2"; fc_name := Some WeatherTool.name;
                    fc_args := None |}]) Examples.live)
  = wire Examples.live.
Proof.
  destruct (provider_rejection_sends_nothing Examples.live 0
              [Scenarios.weatherCall "call-1" "London, UK";
               {| fc_id := Some "call-2"; fc_name := Some WeatherTool.name;
                  fc_args := None |}]
              [] [AltairTool.tool false (fun _ => None)] WeatherTool.tool
              "TypeError: Cannot read properties of undefined"
              eq_refl eq_refl (List.Forall_nil _) eq_refl) as (_ & Hw & _).
  exact Hw.
Defined.

Lemma respond_after_disconnect_witness :
  List.map type
    (log (exec (handleToolCalls_resumed [responsePart Scenarios.tokyo])
               (exec disconnect Examples.live)))
  = [Ev_open; Ev_close; Ev_error].
Proof.
  unfold exec at 1.
  rewrite (respond_after_disconnect [responsePart Scenarios.tokyo]
             (exec disconnect Examples.live) eq_refl);
    [reflexivity | discriminate].
Defined.

(* ================================================================== *)
(** ** Model turns in general *)
(* ================================================================== *)

Lemma played_told bytes w :
  played bytes w
  = logged Ev_audio (Some (D_audio (length bytes))) (streamerTold (AddPCM16 bytes) w).
Proof.
  unfold played, exec. rewrite streamerCall_told. reflexivity.
Qed.

Lemma forEach_playAudio decode (L : list Part) :
  forall w,
    forEach (List.map inlineBase64 L) (playAudio decode) w
    = (match snd (decodeUntilFailure decode
                    (omap (fun p =>
                             match inlineBase64 p with
                             | Some b => if String.eqb b EmptyString then None else Some b
                             | None => None
                             end) L)) with
       | None => Normal tt
       | Some e => Throw e
       end,
       playedAll
         (fst (decodeUntilFailure decode
                 (omap (fun p =>
                          match inlineBase64 p with
                          | Some b => if String.eqb b EmptyString then None else Some b
                          | None => None
                          end) L))) w).
Proof.
  induction L as [| a L IH]; intros w; [reflexivity |].
  cbn [List.map forEach omap list_omap].
  unfold playAudio at 1, JS.truthy.
  destruct (inlineBase64 a) as [b |].
  - destruct (String.eqb b EmptyString).
    + cbn [negb]. erewrite bind_normal by reflexivity. apply IH.
    + cbn [negb default decodeUntilFailure]. unfold id.
      destruct (decode b) as [e | bytes].
      * cbn [await]. unfold bind, throw. reflexivity.
      * cbn [await]. erewrite bind_normal.
        2:{ erewrite bind_normal by reflexivity.
            erewrite bind_normal by apply streamerCall_normal.
            apply addEvent_eq. }
        rewrite IH. fold (played bytes w).
        destruct (decodeUntilFailure decode _) as [chunks failure].
        reflexivity.
  - erewrite bind_normal by reflexivity. apply IH.
Qed.

Lemma onModelTurn_eq decode (mt : option Content) w :
  let ps := default [] (mt ≫= parts) in
  onModelTurn decode mt w
  = match snd (decodeUntilFailure decode (payloads ps)) with
    | None =>
        (Normal tt,
         contentLogged (List.filter (fun p => negb (isAudioPart p)) ps)
           (playedAll (fst (decodeUntilFailure decode (payloads ps))) w))
    | Some e =>
        (Throw e, playedAll (fst (decodeUntilFailure decode (payloads ps))) w)
    end.
Proof.
  intros ps. rewrite onModelTurn_partition. fold ps.
  unfold bind. rewrite forEach_playAudio. fold (payloads ps).
  destruct (snd (decodeUntilFailure decode (payloads ps))); [reflexivity |].
  unfold contentLogged.
  destruct (List.filter (fun p => negb (isAudioPart p)) ps); [reflexivity |].
  apply addEvent_eq.
Qed.

Lemma playedAll_clock chunks : forall w, clock (playedAll chunks w) = clock w.
Proof.
  induction chunks as [| c chunks IH]; intros w; simpl; [reflexivity |].
  unfold playedAll in *. rewrite IH, played_told, logged_clock, streamerTold_clock.
  reflexivity.
Qed.

Lemma playedAll_wire chunks : forall w, wire (playedAll chunks w) = wire w.
Proof.
  induction chunks as [| c chunks IH]; intros w; simpl; [reflexivity |].
  unfold playedAll in *. rewrite IH, played_told, logged_wire, streamerTold_wire.
  reflexivity.
Qed.

(** The entry logged for one chunk. *)
Lemma playedAll_log chunks :
  forall w,
    log (playedAll chunks w)
    = fold_left appendLog
        (List.map (fun bytes => {| type := Ev_audio; timestamp := clock w;
                                   data := Some (D_audio (length bytes)) |}) chunks)
        (log w).
Proof.
  induction chunks as [| c chunks IH]; intros w; simpl; [reflexivity |].
  unfold playedAll in *. rewrite IH, played_told, logged_log, logged_clock.
  unfold log. rewrite streamerTold_state, streamerTold_clock. reflexivity.
Qed.

Lemma playedAll_streamer chunks :
  forall w a,
    audioStreamer w = Some a ->
    audioStreamer (playedAll chunks w)
    = Some {| streamerCalls := streamerCalls a ++ List.map AddPCM16 chunks |}.
Proof.
  induction chunks as [| c chunks IH]; intros w a Ha; simpl.
  - rewrite app_nil_r. destruct a. exact Ha.
  - unfold playedAll in *.
    erewrite IH.
    2:{ rewrite played_told, logged_audioStreamer. unfold streamerTold.
        rewrite Ha. reflexivity. }
    simpl. rewrite <- app_assoc. reflexivity.
Qed.

Lemma payloads_payloadsOf (ps : list Part) :
  payloads ps = payloadsOf (List.filter isAudioPart ps).
Proof.
  unfold payloads, payloadsOf.
  induction (List.filter isAudioPart ps) as [| p l IH]; [reflexivity |].
  cbn [omap list_omap]. rewrite IH. unfold inlineBase64.
  destruct (inlineData p); reflexivity.
Qed.

(** X15.  For a server-content message without [interrupted], whatever
    the parts of its model turn.  Split them into the inline payloads
    whose media type is ["audio/pcm"] followed by anything, and all other
    parts.  When every non-empty payload of the first kind decodes, each
    is enqueued to the streamer and logged as one [audio] entry with its
    byte length, in order; those whose data is missing or empty are
    skipped without an entry; then the other parts, if there are any, are
    logged as one [content] entry, in their order.  Nothing goes on the
    wire. *)
Theorem modelTurn_plays_audio_and_logs_the_rest :
  forall (decode : string -> JsError + list byte) (w : World)
         (message : LiveServerMessage) (sc : LiveServerContent)
         (mt : option Content) (audio others : list Part)
         (chunks : list (list byte)),
    isServerContent message sc ->
    interrupted sc = None ->
    modelTurn sc = Some mt ->
    partitioned (default [] (mt ≫= parts)) audio others ->
    decodeUntilFailure decode (payloadsOf audio) = (chunks, None) ->
    let w0 := turnChecked sc w in
    let w' := exec (onMessage decode message) w in
    onMessage decode message w
    = (Normal tt, contentLogged others (playedAll chunks w0)) /\
    length chunks = length (payloadsOf audio) /\
    log w'
    = fold_left appendLog
        (List.map (fun bytes => {| type := Ev_audio; timestamp := clock w;
                                   data := Some (D_audio (length bytes)) |}) chunks
         ++ match others with
            | [] => []
            | _ :: _ => [{| type := Ev_content; timestamp := clock w;
                            data := Some (D_content others) |}]
            end)
        (log w0) /\
    (forall a, audioStreamer w = Some a ->
               audioStreamer w'
               = Some {| streamerCalls := streamerCalls a ++ List.map AddPCM16 chunks |}) /\
    wire w' = wire w.
Proof.
  intros decode w message sc mt audio others chunks Hsc Hint Hmt Hsplit Hdec w0 w'.
  set (ps := default [] (mt ≫= parts)) in *.
  apply partitioned_filters in Hsplit as [Haudio Hothers].
  rewrite Haudio, <- payloads_payloadsOf in *.
  assert (Hturn : match turnComplete sc with
                  | Some _ => addEvent Ev_turncomplete None
                  | None => ret tt
                  end w = (Normal tt, w0)).
  { unfold w0, turnChecked. destruct (turnComplete sc);
      [apply addEvent_eq | reflexivity]. }
  assert (Heq : onMessage decode message w
                = (Normal tt, contentLogged others (playedAll chunks w0))).
  { rewrite (onMessage_serverContent _ _ sc) by exact Hsc. rewrite Hint, Hmt.
    erewrite bind_normal by exact Hturn.
    rewrite onModelTurn_eq. fold ps. rewrite Hdec, Hothers. reflexivity. }
  assert (H0 : clock w0 = clock w /\ wire w0 = wire w /\
               audioStreamer w0 = audioStreamer w).
  { unfold w0, turnChecked. destruct (turnComplete sc);
      rewrite ?logged_clock, ?logged_wire, ?logged_audioStreamer; repeat split. }
  destruct H0 as (Hclock & Hwire & Hstreamer).
  split; [exact Heq |].
  split.
  { clear -Hdec. revert chunks Hdec.
    induction (payloads ps) as [| b bs IH]; intros chunks Hdec; simpl in Hdec.
    - injection Hdec as <-. reflexivity.
    - destruct (decode b); [discriminate |].
      destruct (decodeUntilFailure decode bs) as [cs f].
      injection Hdec as <- ->. simpl. f_equal. apply IH. reflexivity. }
  unfold w', exec. rewrite Heq. simpl snd.
  rewrite fold_left_app. unfold contentLogged.
  destruct others as [| o os].
  - rewrite playedAll_log, playedAll_wire, Hclock, Hwire. simpl.
    split; [reflexivity |]. split; [| reflexivity].
    intros a Ha. apply playedAll_streamer. rewrite Hstreamer. exact Ha.
  - rewrite logged_log, logged_wire, logged_audioStreamer,
      playedAll_log, playedAll_wire, playedAll_clock, Hclock, Hwire. simpl.
    split; [reflexivity |]. split; [| reflexivity].
    intros a Ha. apply playedAll_streamer. rewrite Hstreamer. exact Ha.
Qed.

(** A turn of text, an audio part without data, an audio chunk at the
    rate of the microphone, and a picture. *)
Lemma modelTurn_plays_audio_and_logs_the_rest_witness :
  let turn :=
    {| interrupted := None; turnComplete := Some true;
       modelTurn := Some (Some {| parts := Some
         [textPart "hi"; Scenarios.pcm EmptyString;
          inlinePart "audio/pcm;rate=16000" "AAAA";
          inlinePart "image/png" "AAAA"; textPart "there"] |}) |} in
  List.map data
    (log (exec (onMessage Examples.decode (Scenarios.content turn)) Examples.live))
  = [None; None; Some (D_audio 3);
     Some (D_content [textPart "hi"; inlinePart "image/png" "AAAA";
                      textPart "there"])].
Proof.
  intros turn.
  assert (Hpcm : forall rate b64, rawPCM (inlinePart ("audio/pcm" ++ rate) b64)).
  { intros rate b64. eexists. split; [reflexivity |].
    eexists. split; [reflexivity |]. exists rate. reflexivity. }
  assert (Htext : forall t, ~ rawPCM (textPart t)).
  { intros t (blob & Hblob & _). discriminate Hblob. }
  assert (Hpng : ~ rawPCM (inlinePart "image/png" "AAAA")).
  { intros (blob & Hblob & mime & Hmime & rest & Hrest).
    injection Hblob as <-. injection Hmime as <-. discriminate Hrest. }
  destruct (modelTurn_plays_audio_and_logs_the_rest Examples.decode Examples.live
              (Scenarios.content turn) turn _
              [Scenarios.pcm EmptyString; inlinePart "audio/pcm;rate=16000" "AAAA"]
              [textPart "hi"; inlinePart "image/png" "AAAA"; textPart "there"]
              [["000"; "000"; "000"]%byte]
              (conj eq_refl (conj eq_refl (conj eq_refl eq_refl)))
              eq_refl eq_refl) as (_ & _ & Hlog & _).
  - apply partitioned_other; [apply Htext |].
    apply partitioned_audio; [apply (Hpcm ";rate=24000") |].
    apply partitioned_audio; [apply (Hpcm ";rate=16000") |].
    apply partitioned_other; [exact Hpng |].
    apply partitioned_other; [apply Htext |].
    constructor.
  - reflexivity.
  - rewrite Hlog. reflexivity.
Defined.

(** X16.  When an audio payload cannot be decoded, the dispatch of the
    message stops with the decoder's exception: the chunks before it
    have been enqueued and logged, the chunks after it are not played,
    and the content entry for the parts that are not audio is not
    written. *)
Theorem undecodable_chunk_aborts_the_turn :
  forall (decode : string -> JsError + list byte) (w : World)
         (message : LiveServerMessage) (sc : LiveServerContent)
         (mt : option Content) (chunks : list (list byte)) (e : JsError),
    isServerContent message sc ->
    interrupted sc = None ->
    modelTurn sc = Some mt ->
    let ps := default [] (mt ≫= parts) in
    decodeUntilFailure decode (payloads ps) = (chunks, Some e) ->
    let w0 := turnChecked sc w in
    let w' := exec (onMessage decode message) w in
    onMessage decode message w = (Throw e, playedAll chunks w0) /\
    length chunks < length (payloads ps) /\
    log w'
    = fold_left appendLog
        (List.map (fun bytes => {| type := Ev_audio; timestamp := clock w;
                                   data := Some (D_audio (length bytes)) |}) chunks)
        (log w0).
Proof.
  intros decode w message sc mt chunks e Hsc Hint Hmt ps Hdec w0 w'.
  assert (Hturn : match turnComplete sc with
                  | Some _ => addEvent Ev_turncomplete None
                  | None => ret tt
                  end w = (Normal tt, w0)).
  { unfold w0, turnChecked. destruct (turnComplete sc);
      [apply addEvent_eq | reflexivity]. }
  assert (Heq : onMessage decode message w = (Throw e, playedAll chunks w0)).
  { rewrite (onMessage_serverContent _ _ sc) by exact Hsc. rewrite Hint, Hmt.
    erewrite bind_normal by exact Hturn.
    rewrite onModelTurn_eq. fold ps. rewrite Hdec. reflexivity. }
  assert (Hclock : clock w0 = clock w).
  { unfold w0, turnChecked. destruct (turnComplete sc);
      rewrite ?logged_clock; reflexivity. }
  split; [exact Heq |].
  split.
  { clear -Hdec. revert chunks Hdec.
    induction (payloads ps) as [| b bs IH]; intros chunks Hdec; simpl in Hdec.
    - discriminate.
    - destruct (decode b).
      + injection Hdec as <- _. simpl. lia.
      + destruct (decodeUntilFailure decode bs) as [cs f].
        injection Hdec as <- ->. simpl. specialize (IH cs eq_refl). lia. }
  unfold w', exec. rewrite Heq. simpl snd.
  rewrite playedAll_log, Hclock. reflexivity.
Qed.

Lemma undecodable_chunk_aborts_the_turn_witness :
  List.map type
    (log (exec (onMessage Examples.decode
                  (Scenarios.content
                     {| interrupted := None; turnComplete := None;
                        modelTurn := Some (Some {| parts := Some
                          [Scenarios.pcm "AAAA"; textPart "hi";
                           Scenarios.pcm "not base64!"] |}) |}))
               Examples.live))
  = [Ev_open; Ev_audio].
Proof.
  destruct (undecodable_chunk_aborts_the_turn Examples.decode Examples.live
              (Scenarios.content
                 {| interrupted := None; turnComplete := None;
                    modelTurn := Some (Some {| parts := Some
                      [Scenarios.pcm "AAAA"; textPart "hi";
                       Scenarios.pcm "not base64!"] |}) |})
              _ _ [["000"; "000"; "000"]%byte] "InvalidCharacterError"
              (conj eq_refl (conj eq_refl (conj eq_refl eq_refl)))
              eq_refl eq_refl eq_refl) as (_ & _ & Hlog).
  rewrite Hlog. reflexivity.
Defined.

(* ================================================================== *)
(** ** The listener and the log *)
(* ================================================================== *)

(** X17.  A client created with a state listener keeps it informed: in
    every history, the last snapshot handed to the listener is the state
    the client is in (or nothing was handed over yet and the state is
    still the initial one).  No state change goes unreported. *)
Theorem listener_has_the_latest_state :
  forall (decode : string -> JsError + list byte) (ops : list Op)
         (ts : list CallableTool) (now : Z),
    listenerUpToDate (run decode ops (newClient true ts now)).
Proof.
  intros decode ops ts now.
  apply (invariant_in_every_history listenerUpToDate);
    try (intros ? ? H; exact H).
  - intros a w _ H. exact H.
  - intros h m c w H. exact H.
  - intros u w _ [Hl _]. unfold listenerUpToDate.
    rewrite commit_onStateChange, commit_delivered, commit_state, Hl.
    split; [reflexivity |]. left. apply last_snoc.
  - intros ty d w [Hl _]. unfold listenerUpToDate, logged.
    rewrite commit_onStateChange, commit_delivered, commit_state, Hl.
    split; [reflexivity |]. left. apply last_snoc.
  - split; [reflexivity |]. right. split; reflexivity.
Qed.

Lemma slice_suffix {A} (k : Z) (l : list A) :
  exists dropped, l = dropped ++ JS.slice k l.
Proof.
  unfold JS.slice. eexists. symmetry. apply take_drop.
Qed.

(** X18.  An append never reorders or rewrites entries: the log after
    [addEvent] is a tail of the old log followed by the new entry, the
    new entry is its last element, and while the 200 entries are not
    exceeded nothing is dropped at all. *)
Theorem addEvent_keeps_the_order :
  forall (w : World) (ty : EventType) (d : option EventData),
    let e := {| type := ty; timestamp := clock w; data := d |} in
    let w' := exec (addEvent ty d) w in
    (exists dropped, log w ++ [e] = dropped ++ log w') /\
    last (log w') = Some e /\
    (length (log w) < 200 -> log w' = log w ++ [e]).
Proof.
  intros w ty d e w'.
  assert (Hlog : log w' = appendLog (log w) e).
  { unfold w', exec. rewrite addEvent_eq. apply logged_log. }
  rewrite Hlog. unfold appendLog.
  destruct (Nat.ltb_spec 200 (length (log w ++ [e]))) as [Hover | Hfits].
  - split; [apply slice_suffix |]. split.
    + rewrite slice_last_150.
      replace (length (log w ++ [e]) - 150) with (length (log w) - 149)
        by (rewrite length_app; simpl; lia).
      rewrite drop_app_le by lia. apply last_snoc.
    + intros Hlt. rewrite length_app in Hover. simpl in Hover. lia.
  - split; [exists []; reflexivity |]. split; [apply last_snoc | reflexivity].
Qed.

Lemma addEvent_keeps_the_order_witness :
  log (exec (addEvent Ev_interrupted None) Examples.live)
  = log Examples.live
    ++ [{| type := Ev_interrupted; timestamp := 1000; data := None |}].
Proof.
  destruct (addEvent_keeps_the_order Examples.live Ev_interrupted None)
    as (_ & _ & H).
  apply H. simpl. lia.
Defined.

(* ================================================================== *)
(** ** Teardown *)
(* ================================================================== *)

Lemma destroy_eq w :
  destroy w
  = (Normal tt,
     set_tools []
       (streamerTold StreamerStop
          (recorderTold RecStop (exec disconnect w)))).
Proof.
  unfold destroy.
  assert (Hd : exists b, disconnect w = (Normal b, exec disconnect w)).
  { unfold exec. destruct (session w) as [h |] eqn:Hs.
    - rewrite (disconnect_eq w h Hs). eexists. reflexivity.
    - unfold disconnect, bind, get. rewrite Hs. eexists. reflexivity. }
  destruct Hd as [b Hd].
  erewrite bind_normal by exact Hd.
  erewrite bind_normal by apply recorderCall_told.
  erewrite bind_normal by apply streamerCall_told.
  reflexivity.
Qed.

(** X19.  [destroy()] never throws and leaves the client without a
    session handle and without providers.  A handle it held is closed
    exactly once; when it held none, nothing goes on the wire and the
    connected flag is left as it was.  Afterwards [sendText],
    [sendRealtimeInput] and the tool dispatch do nothing, and a second
    [destroy()] puts nothing on the wire. *)
Theorem destroy_releases_session_and_providers :
  forall w : World,
    let w' := exec destroy w in
    completion destroy w = Normal tt /\
    session w' = None /\
    tools w' = [] /\
    wire w' = wire w ++ match session w with
                        | Some h => [Close h]
                        | None => []
                        end /\
    connected (_state w') = match session w with
                            | Some _ => false
                            | None => connected (_state w)
                            end /\
    (forall t tc, sendText t tc w' = (Normal tt, w')) /\
    (forall chunks, sendRealtimeInput chunks w' = (Normal tt, w')) /\
    (forall fcs, handleToolCalls fcs w' = (Normal tt, w')) /\
    wire (exec destroy w') = wire w'.
Proof.
  intros w w'.
  assert (Hw' : w' = set_tools []
                       (streamerTold StreamerStop
                          (recorderTold RecStop (exec disconnect w)))).
  { unfold w', exec at 1. rewrite destroy_eq. reflexivity. }
  assert (Hd : session (exec disconnect w) = None /\
               wire (exec disconnect w)
               = wire w ++ match session w with
                           | Some h => [Close h]
                           | None => []
                           end /\
               connected (_state (exec disconnect w))
               = match session w with
                 | Some _ => false
                 | None => connected (_state w)
                 end).
  { unfold exec. destruct (session w) as [h |] eqn:Hs.
    - rewrite (disconnect_eq w h Hs). simpl snd.
      rewrite logged_state. simpl. autorewrite with told. simpl.
      repeat split.
    - unfold disconnect, bind, get. rewrite Hs. simpl.
      rewrite app_nil_r. repeat split. exact Hs. }
  destruct Hd as (Hs & Hwire & Hc).
  assert (Hs' : session w' = None).
  { rewrite Hw'. simpl. autorewrite with told. exact Hs. }
  split; [unfold completion; rewrite destroy_eq; reflexivity |].
  split; [exact Hs' |].
  split; [rewrite Hw'; reflexivity |].
  split; [rewrite Hw'; simpl; autorewrite with told; exact Hwire |].
  split; [rewrite Hw'; simpl; autorewrite with told; exact Hc |].
  split; [intros t tc; unfold sendText, bind, get; rewrite Hs'; reflexivity |].
  split; [intros chunks; unfold sendRealtimeInput, bind, get; rewrite Hs'; reflexivity |].
  split; [intros fcs; unfold handleToolCalls, bind, get; rewrite Hs'; reflexivity |].
  unfold exec at 1. rewrite destroy_eq. simpl snd. simpl.
  autorewrite with told.
  unfold exec, disconnect, bind, get. rewrite Hs'. reflexivity.
Qed.

(* ================================================================== *)
(** ** Snapshots that have been handed out *)
(* ================================================================== *)

Module StoreUpdates.
Import Store.

Lemma alloc_keeps_snapshots o (c : Client) (l : loc) (st : LiveAPIState) :
  snapshotAt l c = Some st -> snapshotAt l (alloc o c).2 = Some st.
Proof.
  intros H. unfold snapshotAt, alloc. simpl.
  apply StoreFacts.snapshotIn_insert_unused; [apply StoreFacts.fresh_unused | exact H].
Qed.

Lemma updateState_keeps_snapshots u (c c' : Client) (l : loc) (st : LiveAPIState) :
  updateState u c = Some c' ->
  snapshotAt l c = Some st ->
  snapshotAt l c' = Some st /\
  inbox c' = (if listening c then inbox c ++ [this_state c'] else inbox c) /\
  this_state c' <> l.
Proof.
  intros Hu Hl. unfold updateState in Hu.
  destruct (readState (heap c) (this_state c)) as [s |] eqn:Hs; [| discriminate].
  simpl in Hu. injection Hu as <-. simpl.
  split; [| split].
  - unfold snapshotAt. simpl.
    apply StoreFacts.snapshotIn_insert_unused; [apply StoreFacts.fresh_unused | exact Hl].
  - reflexivity.
  - intros Heq. apply StoreFacts.snapshotIn_Some in Hl as (s' & _ & _ & Hl & _).
    rewrite <- Heq, StoreFacts.fresh_unused in Hl. discriminate.
Qed.

(** X20.  The client never writes into an object it has handed out.
    Whatever snapshot can be read through a reference before an
    [addEvent], the same snapshot is read through it afterwards: states
    held by the listener or returned by [getState()] keep their log while
    the client moves on to a new state object and a new array.  The
    listener is handed exactly the new state object. *)
Theorem published_snapshots_never_change :
  forall (c c' : Client) (l : loc) (st : LiveAPIState)
         (now : Z) (ty : EventType) (d : option EventData),
    snapshotAt l c = Some st ->
    addEvent now ty d c = Some c' ->
    snapshotAt l c' = Some st /\
    this_state c' <> l /\
    inbox c' = (if listening c then inbox c ++ [this_state c'] else inbox c).
Proof.
  intros c c' l st now ty d Hl Hadd. unfold addEvent in Hadd.
  destruct (readState (heap c) (this_state c)) as [s |]; [| discriminate].
  simpl in Hadd.
  destruct (readEvents (heap c) (o_events s)) as [es |]; [| discriminate].
  simpl in Hadd.
  set (e := {| type := ty; timestamp := now; data := d |}) in *.
  pose proof (alloc_keeps_snapshots (EventArray (es ++ [e])) c l st Hl) as H1.
  destruct (200 <? length (es ++ [e]))%nat.
  - pose proof (alloc_keeps_snapshots
                  (EventArray (JS.slice (-150) (es ++ [e])))
                  (alloc (EventArray (es ++ [e])) c).2 l st H1) as H2.
    destruct (updateState_keeps_snapshots _ _ _ l st Hadd H2)
      as (Hkept & Hinbox & Hne).
    split; [exact Hkept |]. split; [exact Hne | exact Hinbox].
  - destruct (updateState_keeps_snapshots _ _ _ l st Hadd H1)
      as (Hkept & Hinbox & Hne).
    split; [exact Hkept |]. split; [exact Hne | exact Hinbox].
Qed.

(** The state the listener got at open still reads the same after one
    more append. *)
Lemma published_snapshots_never_change_witness :
  snapshotAt 4 (default afterOpen (addEvent 1001 Ev_turncomplete None afterOpen))
  = snapshotAt 4 afterOpen.
Proof.
  destruct (published_snapshots_never_change afterOpen
              (default afterOpen (addEvent 1001 Ev_turncomplete None afterOpen))
              4 _ 1001 Ev_turncomplete None eq_refl eq_refl) as (H & _).
  rewrite H. reflexivity.
Defined.

End StoreUpdates.

(* ================================================================== *)
(** ** The providers *)
(* ================================================================== *)

Lemma WeatherTool_answer_answers fc p :
  WeatherTool.answer fc = inr p -> answerTo p fc.
Proof.
  unfold WeatherTool.answer. destruct (fc_args fc) as [args |]; [| discriminate].
  intros H. injection H as <-. eexists. split; [reflexivity |]. split; reflexivity.
Qed.

Lemma WeatherTool_answer_resolves fc :
  fc_args fc <> None -> exists p, WeatherTool.answer fc = inr p.
Proof.
  unfold WeatherTool.answer. destruct (fc_args fc) as [args |]; [| contradiction].
  intros _. eexists. reflexivity.
Qed.

(** X21.  [WeatherTool.callTool] looks at the calls named [get_weather]
    only.  When each of them has arguments, it resolves to one function
    response per such call, in the order of the calls, each with the id
    and name of its call; calls of other names get no answer.  When one
    of them has no arguments, it rejects and gives no answer at all. *)
Theorem WeatherTool_answers_the_calls_it_is_named_in :
  forall fcs : list FunctionCall,
    (Forall (fun fc => named WeatherTool.name fc = true -> fc_args fc <> None) fcs ->
     exists ps,
       WeatherTool.callTool fcs = inr ps /\
       Forall2 answerTo ps (List.filter (named WeatherTool.name) fcs)) /\
    (Exists (fun fc => named WeatherTool.name fc = true /\ fc_args fc = None) fcs ->
     exists e, WeatherTool.callTool fcs = inl e).
Proof.
  intros fcs. split.
  - induction 1 as [| fc fcs Hfc _ IH]; simpl.
    + exists []. split; [reflexivity | constructor].
    + destruct IH as (ps & Hps & Hans).
      unfold named in *. destruct (bool_decide (fc_name fc = Some WeatherTool.name)).
      * destruct (WeatherTool_answer_resolves fc (Hfc eq_refl)) as [p Hp].
        rewrite Hp, Hps. exists (p :: ps). split; [reflexivity |].
        constructor; [apply WeatherTool_answer_answers; exact Hp | exact Hans].
      * exists ps. split; assumption.
  - induction 1 as [fc fcs [Hn Ha] | fc fcs _ IH]; simpl.
    + unfold named in Hn. rewrite Hn. unfold WeatherTool.answer. rewrite Ha.
      eexists. reflexivity.
    + destruct IH as [e He]. rewrite He.
      destruct (bool_decide (fc_name fc = Some WeatherTool.name));
        [destruct (WeatherTool.answer fc) |]; eexists; reflexivity.
Qed.

Lemma WeatherTool_answers_the_calls_it_is_named_in_witness :
  exists ps,
    WeatherTool.callTool
      [Scenarios.weatherCall "a" "Paris, France";
       {| fc_id := Some "b"; fc_name := Some "render_altair"; fc_args := None |};
       Scenarios.weatherCall "c" "Atlantis"] = inr ps /\
    length ps = 2.
Proof.
  destruct (WeatherTool_answers_the_calls_it_is_named_in
              [Scenarios.weatherCall "a" "Paris, France";
               {| fc_id := Some "b"; fc_name := Some "render_altair"; fc_args := None |};
               Scenarios.weatherCall "c" "Atlantis"]) as [H _].
  destruct H as (ps & Hps & Hans).
  - repeat constructor; simpl; intros; discriminate.
  - exists ps. split; [exact Hps |].
    apply Forall2_length in Hans. exact Hans.
Defined.

Lemma AltairTool_answer_answers container vegaEmbed fc :
  answerTo (AltairTool.answer container vegaEmbed fc) fc.
Proof.
  unfold AltairTool.answer, AltairTool.output.
  destruct (fc_args fc) as [args |].
  - destruct (container && JS.truthy (WeatherTool.arg "json_graph" args)).
    + destruct (vegaEmbed _); eexists; (split; [reflexivity | split; reflexivity]).
    + eexists; (split; [reflexivity | split; reflexivity]).
  - eexists; (split; [reflexivity | split; reflexivity]).
Qed.

(** X22.  [AltairTool.callTool] never rejects: every call named
    [render_altair] gets one function response with its id and name, in
    the order of the calls, and calls of other names get none.  Without a
    container nothing is rendered and every answer reports
    [success: false]. *)
Theorem AltairTool_answers_and_never_rejects :
  forall (container : bool) (vegaEmbed : string -> option JsError)
         (fcs : list FunctionCall),
    exists ps,
      AltairTool.callTool container vegaEmbed fcs = inr ps /\
      Forall2 answerTo ps (List.filter (named AltairTool.name) fcs) /\
      (container = false ->
       Forall2 (fun p fc => exists message, p = AltairTool.output fc false message)
         ps (List.filter (named AltairTool.name) fcs)).
Proof.
  intros container vegaEmbed fcs. unfold AltairTool.callTool.
  eexists. split; [reflexivity |].
  fold (named AltairTool.name).
  induction (List.filter (named AltairTool.name) fcs) as [| fc l [IH1 IH2]]; simpl.
  - split; [constructor | intros _; constructor].
  - split.
    + constructor; [apply AltairTool_answer_answers | exact IH1].
    + intros ->. constructor; [| apply IH2; reflexivity].
      unfold AltairTool.answer. destruct (fc_args fc); eexists; reflexivity.
Qed.
